(** * Linear Diophantine equations [a*x + b*y = c]: the solver core of main.py

    The development embeds the five core functions of [src/main.py]
    ([extended_gcd], [find_particular_solution], [find_min_t_range],
    [generate_solutions], [calculate_window_size]) and proves, or refutes at
    a concrete input, the properties stated about them.  Its last part adds
    the computing parts of the two callers, [create_plot] and [main], and
    further properties of the solver: its outcomes on every input, the size
    of what it computes, and what the range estimate guarantees.

    Python integers are unbounded, so they are [Z].  Python's [//] and [%]
    are floor division and the remainder that takes the sign of the divisor:
    on a non-zero divisor these are [Z.div] and [Z.modulo]; on a zero
    divisor Python raises [ZeroDivisionError], which the model keeps as an
    explicit outcome.  [math.gcd] is the non-negative gcd, [Z.gcd]. *)

From Stdlib Require Import ZArith List Lia Bool Permutation Sorted.
From Stdlib Require Import Znumtheory.
From Stdlib Require Import SpecFloat.
Import ListNotations.

Local Open Scope Z_scope.

(** ** Outcomes of a Python call *)

Inductive exn : Type :=
| ZeroDivisionError
| ValueError
| IndexError
| OverflowError
| RecursionError.

Inductive result (A : Type) : Type :=
| Ok (a : A)
| Raise (e : exn).

Arguments Ok {A} a.
Arguments Raise {A} e.

Definition bind {A B : Type} (m : result A) (k : A -> result B) : result B :=
  match m with
  | Ok a => k a
  | Raise e => Raise e
  end.

Notation "x <- m ;; k" := (bind m (fun x => k))
  (at level 61, m at next level, right associativity).
Notation "' p <- m ;; k" := (bind m (fun p => k))
  (at level 61, p pattern, m at next level, right associativity).

(** ** Integer primitives *)

Module Py.

(** [a // b] *)
Definition floordiv (a b : Z) : result Z :=
  if b =? 0 then Raise ZeroDivisionError else Ok (a / b).

(** [a % b] *)
Definition mod_ (a b : Z) : result Z :=
  if b =? 0 then Raise ZeroDivisionError else Ok (a mod b).

(** [range(lo, hi)] *)
Definition range (lo hi : Z) : list Z :=
  map (fun i => lo + Z.of_nat i) (seq 0 (Z.to_nat (hi - lo))).

(** [l[:k]]: a negative [k] counts from the end. *)
Definition slice_to {A : Type} (l : list A) (k : Z) : list A :=
  if 0 <=? k then firstn (Z.to_nat k) l
  else firstn (length l - Z.to_nat (- k)) l.

(** [s[i]] for a non-negative constant index [i]. *)
Definition index {A : Type} (s : list A) (i : nat) : result A :=
  match nth_error s i with
  | Some v => Ok v
  | None => Raise IndexError
  end.

(** [for x in l: ...] with a body that may raise: the first exception
    stops the loop. *)
Fixpoint for_each {A B : Type} (f : A -> result B) (l : list A)
  : result (list B) :=
  match l with
  | [] => Ok []
  | x :: l' => y <- f x ;; ys <- for_each f l' ;; Ok (y :: ys)
  end.

End Py.

(** ** [extended_gcd]

    The recursion of the source is on [(b, a % b)]; the model carries the
    recursion depth still available as [fuel] and answers [None] when it is
    used up.  [|b| + 1] levels always suffice (this is proved below), and
    that is the depth [extended_gcd] allots, so its [RecursionError] branch
    is never taken.  The interpreter's own recursion limit, which only
    operands of several hundred digits can reach, is not modelled. *)

Fixpoint extended_gcd_fuel (fuel : nat) (a b : Z)
  : option (result (Z * Z * Z)) :=
  match fuel with
  | O => None
  | S fuel' =>
      if b =? 0 then Some (Ok (a, 1, 0))
      else
        match Py.mod_ a b with
        | Raise e => Some (Raise e)
        | Ok r =>
            match extended_gcd_fuel fuel' b r with
            | None => None
            | Some (Raise e) => Some (Raise e)
            | Some (Ok (d, x1, y1)) =>
                let x := y1 in
                Some (q <- Py.floordiv a b ;;
                      let y := x1 - q * y1 in
                      Ok (d, x, y))
            end
        end
  end.

Definition extended_gcd (a b : Z) : result (Z * Z * Z) :=
  match extended_gcd_fuel (S (Z.abs_nat b)) a b with
  | Some r => r
  | None => Raise RecursionError
  end.

(** ** [find_particular_solution]

    [raise ValueError(...)] is [Raise ValueError]; a division by zero in
    [c % d] or [c // d] is [Raise ZeroDivisionError]. *)

Definition find_particular_solution (a b c : Z) : result (Z * Z) :=
  '(d, x0, y0) <- extended_gcd (Z.abs a) (Z.abs b) ;;
  r <- Py.mod_ c d ;;
  if negb (r =? 0) then Raise ValueError
  else
    q <- Py.floordiv c d ;;
    let x0 := x0 * q in
    q' <- Py.floordiv c d ;;
    let y0 := y0 * q' in
    let x0 := if a <? 0 then - x0 else x0 in
    let y0 := if b <? 0 then - y0 else y0 in
    Ok (x0, y0).

(** ** [find_min_t_range]

    [target_x] and [target_y] default to [None]. *)

Definition find_min_t_range (a b c : Z) (target_x target_y : option Z)
  : result Z :=
  '(x0, y0) <- find_particular_solution a b c ;;
  let d := Z.gcd a b in
  match target_x, target_y with
  | Some tx, Some _ =>
      bd <- Py.floordiv b d ;;
      t <- Py.floordiv (tx - x0) bd ;;
      Ok (Z.max (Z.abs t + 5) 50)
  | _, _ =>
      bd <- Py.floordiv b d ;;
      q1 <- Py.floordiv x0 bd ;;
      ad <- Py.floordiv a d ;;
      q2 <- Py.floordiv y0 ad ;;
      let t_estimate := Z.max (Z.abs q1) (Z.abs q2) + 5 in
      Ok (Z.max t_estimate 50)
  end.

(** ** [list.sort]

    [list.sort] is stable and compares with [<] only.  When [<] is a strict
    weak order on the elements (for float keys: none of them is a NaN) the
    result is the one stable sorted arrangement, which is what this
    insertion sort builds: an element is put in front of the first element
    of the sorted tail that is not smaller than it. *)

Fixpoint insert_by {A : Type} (lt : A -> A -> bool) (x : A) (l : list A)
  : list A :=
  match l with
  | [] => [x]
  | y :: l' => if lt y x then y :: insert_by lt x l' else x :: y :: l'
  end.

Fixpoint sort_by {A : Type} (lt : A -> A -> bool) (l : list A) : list A :=
  match l with
  | [] => []
  | x :: l' => insert_by lt x (sort_by lt l')
  end.

(** ** Floating point

    [generate_solutions] calls [math.sqrt] and sorts on its results, and
    [calculate_window_size] multiplies by the literal [1.2] and truncates
    with [int].  These are the only floating-point operations of the core.
    They are taken through the interface [FloatOps], so that every
    definition below keeps the shape of the source, and what a theorem needs
    from the arithmetic appears as a hypothesis of that theorem.
    [binary64] further down is the IEEE 754 double instance, built on the
    Standard Library's executable specification. *)

Class FloatOps : Type := {
  float : Type;
  (** conversion of an [int] operand; [None] is Python's [OverflowError]
      ("int too large to convert to float") *)
  float_of_int : Z -> option float;
  float_sqrt : float -> float;
  (** [<] on floats, the comparison [list.sort] uses *)
  float_lt : float -> float -> bool;
  float_mul : float -> float -> float;
  (** the literal [1.2] *)
  float_1_2 : float;
  (** [int(f)], truncation toward zero; [None] is the exception raised on
      an infinity (a NaN, the other operand [int] refuses, cannot come out
      of a product of a converted [int] with [1.2]) *)
  int_of_float : float -> option Z
}.

Definition lift_overflow {A : Type} (o : option A) : result A :=
  match o with
  | Some v => Ok v
  | None => Raise OverflowError
  end.

Section Core.

Context {F : FloatOps}.

(** [math.sqrt(n)] on an [int]: the operand is converted first, then a
    negative operand is a [ValueError] (math domain error). *)
Definition math_sqrt (n : Z) : result float :=
  f <- lift_overflow (float_of_int n) ;;
  if n <? 0 then Raise ValueError else Ok (float_sqrt f).

(** [n * 1.2] for an [int] [n] *)
Definition int_mul_1_2 (n : Z) : result float :=
  f <- lift_overflow (float_of_int n) ;;
  Ok (float_mul f float_1_2).

(** [int(f)] *)
Definition py_int (f : float) : result Z := lift_overflow (int_of_float f).

(** [int(n * 1.2)] *)
Definition times_1_2 (n : Z) : result Z :=
  f <- int_mul_1_2 n ;; py_int f.

(** [solutions.sort(key=...)]: the keys are floats, compared with [<]. *)
Definition sort_by_key {A : Type} (key : A -> float) (l : list A) : list A :=
  sort_by (fun x y => float_lt (key x) (key y)) l.

(** *** [generate_solutions] *)

(** The body of the [for t in range(...)] loop: the tuple appended to
    [solutions]. *)
Definition solution_at (a b d x0 y0 t : Z) : result (Z * Z * Z * float) :=
  bd <- Py.floordiv b d ;;
  let x := x0 + bd * t in
  ad <- Py.floordiv a d ;;
  let y := y0 - ad * t in
  dist <- math_sqrt (x * x + y * y) ;;
  Ok (x, y, t, dist).

Definition generate_solutions (a b c t_range max_solutions : Z)
  : result (list (Z * Z * Z)) :=
  match find_particular_solution a b c with
  | Raise ValueError => Ok []
  | Raise e => Raise e
  | Ok (x0, y0) =>
      let d := Z.gcd a b in
      solutions <- Py.for_each (solution_at a b d x0 y0)
                     (Py.range (- t_range) (t_range + 1)) ;;
      let solutions := sort_by_key (fun s => snd s) solutions in
      let solutions := Py.slice_to solutions max_solutions in
      Ok (map (fun '(x, y, t, _) => (x, y, t)) solutions)
  end.

(** *** [calculate_window_size]

    The parameter is annotated [List[Tuple[int, int, int, float, int, int]]]
    and the body reads [s[4]] and [s[5]] only.  A tuple is modelled as the
    list of its fields, so that indexing past the end is the [IndexError]
    Python raises; fields are integers (the slot of the float at index 3,
    which is never read, holds an integer as well). *)

Definition max_of (x : Z) (l : list Z) : Z := fold_left Z.max l x.

Definition plot_extent (s : list Z) : result Z :=
  s4 <- Py.index s 4 ;;
  s5 <- Py.index s 5 ;;
  Ok (Z.max (Z.abs s4) (Z.abs s5)).

Definition calculate_window_size (solutions : list (list Z)) : result Z :=
  match solutions with
  | [] => Ok 10
  | _ :: _ =>
      extents <- Py.for_each plot_extent solutions ;;
      match extents with
      | [] => Raise ValueError
      | e :: es =>
          let max_coord := max_of e es in
          times_1_2 max_coord
      end
  end.

End Core.

(** *** IEEE 754 binary64 *)

Module Binary64.

Definition prec : Z := 53.
Definition emax : Z := 1024.

Definition of_int (n : Z) : option spec_float :=
  match binary_normalize prec emax n 0 false with
  | S754_infinity _ => None
  | f => Some f
  end.

(** [1.2] is [0x3FF3333333333333] *)
Definition c_1_2 : spec_float := S754_finite false 5404319552844595 (-52).

Definition trunc (f : spec_float) : option Z :=
  match f with
  | S754_zero _ => Some 0
  | S754_finite s m e =>
      let v := if 0 <=? e then Z.pos m * 2 ^ e
               else Z.pos m / 2 ^ (- e) in
      Some (if s then - v else v)
  | S754_infinity _ | S754_nan => None
  end.

(** [math.sqrt(n)] for an [int] [n >= 0]; [None] is the [OverflowError]. *)
Definition sqrt_int (n : Z) : option spec_float :=
  match of_int n with
  | Some f => Some (SFsqrt prec emax f)
  | None => None
  end.

(** The positive float with mantissa [Q] in [[2^52, 2^53]] and exponent [e];
    a mantissa of [2^53] is renormalised. *)
Definition fl (Q e : Z) : spec_float :=
  if Q <? 2 ^ 53 then S754_finite false (Z.to_pos Q) e
  else S754_finite false (Z.to_pos (2 ^ 52)) (e + 1).

(** The value of a finite positive float, times [2^52]: an integer when the
    exponent is at least [-52]. *)
Definition scaled (M : positive) (e : Z) : Z := Z.pos M * 2 ^ (e + 52).

(** [int(n * 1.2)] in this arithmetic; [None] is the [OverflowError]. *)
Definition scale_1_2 (n : Z) : option Z :=
  match of_int n with
  | Some f => trunc (SFmul prec emax f c_1_2)
  | None => None
  end.

End Binary64.

#[export] Instance binary64 : FloatOps := {
  float := spec_float;
  float_of_int := Binary64.of_int;
  float_sqrt := SFsqrt Binary64.prec Binary64.emax;
  float_lt := SFltb;
  float_mul := SFmul Binary64.prec Binary64.emax;
  float_1_2 := Binary64.c_1_2;
  int_of_float := Binary64.trunc
}.

(** ** The callers: [create_plot] and [main]

    Both functions hand their results to the plotting and page libraries.
    What is embedded is the part that computes: the axis range of the plot,
    and the way from the widget values to the list of solutions shown. *)

(** [max(...)] over a generator of ints: the first item, then every larger
    one; [ValueError] when there is no item. *)
Definition py_max (l : list Z) : result Z :=
  match l with
  | [] => Raise ValueError
  | x :: l' => Ok (max_of x l')
  end.

Section Application.

Context {F : FloatOps}.

(** [create_plot] up to [window_size]: [None] is the early return of an
    empty figure when there are no solutions; otherwise the value of
    [window_size], which becomes the range [[-window_size, window_size]] of
    both axes. *)
Definition create_plot_window_size (solutions : list (Z * Z * Z))
  : result (option Z) :=
  match solutions with
  | [] => Ok None
  | _ :: _ =>
      let x_coords := map (fun s => fst (fst s)) solutions in
      let y_coords := map (fun s => snd (fst s)) solutions in
      mx <- py_max (map Z.abs x_coords) ;;
      my <- py_max (map Z.abs y_coords) ;;
      let max_coord := Z.max mx my in
      window_size <- times_1_2 max_coord ;;
      Ok (Some window_size)
  end.

(** [main] from the widget values [a], [b], [c], [max_solutions] to the
    list [solutions] that is plotted and tabulated.  [Ok None] is the early
    [return] after the message "No integer solutions exist"; an exception is
    what the enclosing [except Exception] reports as "An error occurred". *)
Definition main_solutions (a b c max_solutions : Z)
  : result (option (list (Z * Z * Z))) :=
  t_range <- find_min_t_range a b c None None ;;
  let d := Z.gcd a b in
  r <- Py.mod_ c d ;;
  if negb (r =? 0) then Ok None
  else
    solutions <- generate_solutions a b c t_range max_solutions ;;
    Ok (Some solutions).

End Application.

(** ** Vocabulary of the statements *)

(** The equation has integer solutions and [gcd(|a|,|b|)] is not zero. *)
Definition feasible (a b c : Z) : Prop :=
  0 < Z.gcd (Z.abs a) (Z.abs b) /\ c mod Z.gcd (Z.abs a) (Z.abs b) = 0.

(** The members of the solution family that the loop of
    [generate_solutions] enumerates, in the order of enumeration. *)
Definition candidates (a b c t_range : Z) : list (Z * Z * Z) :=
  match find_particular_solution a b c with
  | Ok (x0, y0) =>
      map (fun t => (x0 + b / Z.gcd a b * t, y0 - a / Z.gcd a b * t, t))
        (Py.range (- t_range) (t_range + 1))
  | Raise _ => []
  end.

(** Square of the Euclidean distance to the origin. *)
Definition sq_dist (s : Z * Z * Z) : Z :=
  let '(x, y, _) := s in x * x + y * y.

Definition param (s : Z * Z * Z) : Z := snd s.

(** [s1] comes before [s2] when it is strictly closer to the origin, or as
    close and enumerated earlier. *)
Definition closer_or_earlier (s1 s2 : Z * Z * Z) : Prop :=
  sq_dist s1 < sq_dist s2 \/ (sq_dist s1 = sq_dist s2 /\ param s1 < param s2).

(** [math.sqrt] neither overflows on the squared distances of [l] nor merges
    or inverts two of them: the float keys compare as the distances do. *)
Definition sqrt_exact_on {F : FloatOps} (l : list (Z * Z * Z)) : Prop :=
  forall s1 s2, In s1 l -> In s2 l ->
    exists f1 f2,
      math_sqrt (sq_dist s1) = Ok f1 /\
      math_sqrt (sq_dist s2) = Ok f2 /\
      float_lt f1 f2 = (sq_dist s1 <? sq_dist s2).

(** [m] is the largest [max(|s[4]|, |s[5]|)] over the records of [l]. *)
Definition is_max_extent (m : Z) (l : list (list Z)) : Prop :=
  Forall (fun s => exists s4 s5, nth_error s 4 = Some s4 /\
                                 nth_error s 5 = Some s5 /\
                                 Z.abs s4 <= m /\ Z.abs s5 <= m) l /\
  Exists (fun s => exists s4 s5, nth_error s 4 = Some s4 /\
                                 nth_error s 5 = Some s5 /\
                                 (m = Z.abs s4 \/ m = Z.abs s5)) l.

(** The sign of the value [extended_gcd a b] returns as gcd: that of the last
    non-zero remainder, which is [b]'s sign, or [a]'s when [b = 0]. *)
Definition gcd_nonneg_case (a b : Z) : bool :=
  (0 <? b) || ((b =? 0) && (0 <=? a)).

(** [x] comes before [y] for the integer key [kz], ties decided by [pos]. *)
Definition before {A : Type} (kz pos : A -> Z) (x y : A) : Prop :=
  kz x < kz y \/ (kz x = kz y /\ pos x < pos y).

(** The loop of [generate_solutions]: each candidate with its key. *)
Definition decorate {F : FloatOps} (cs : list (Z * Z * Z))
  : result (list (Z * Z * Z * float)) :=
  Py.for_each (fun s => dist <- math_sqrt (sq_dist s) ;; Ok (s, dist)) cs.

(** * Properties *)

Lemma bind_Ok_inv {A B : Type} (m : result A) (k : A -> result B) (b : B) :
  bind m k = Ok b -> exists a, m = Ok a /\ k a = Ok b.
Proof. destruct m as [a|e]; simpl; intros H; [eauto | discriminate]. Qed.

Lemma floordiv_nonzero a b : b <> 0 -> Py.floordiv a b = Ok (a / b).
Proof. unfold Py.floordiv. destruct (Z.eqb_spec b 0); congruence. Qed.

Lemma mod_nonzero a b : b <> 0 -> Py.mod_ a b = Ok (a mod b).
Proof. unfold Py.mod_. destruct (Z.eqb_spec b 0); congruence. Qed.

Lemma floordiv_zero a : Py.floordiv a 0 = Raise ZeroDivisionError.
Proof. reflexivity. Qed.

Lemma mod_zero a : Py.mod_ a 0 = Raise ZeroDivisionError.
Proof. reflexivity. Qed.

(** ** [extended_gcd] *)

Lemma extended_gcd_fuel_mono fuel :
  forall a b r, extended_gcd_fuel fuel a b = Some r ->
  forall fuel', (fuel <= fuel')%nat -> extended_gcd_fuel fuel' a b = Some r.
Proof.
  induction fuel as [|fuel IH]; intros a b r H fuel' Hle; [discriminate|].
  destruct fuel' as [|fuel']; [lia|].
  simpl in *.
  destruct (b =? 0); [assumption|].
  destruct (Py.mod_ a b) as [m|e]; [|assumption].
  destruct (extended_gcd_fuel fuel b m) as [r'|] eqn:E; [|discriminate].
  rewrite (IH _ _ _ E fuel') by lia. assumption.
Qed.

Lemma extended_gcd_fuel_spec fuel :
  forall a b, (Z.abs_nat b < fuel)%nat ->
  exists d x y,
    extended_gcd_fuel fuel a b = Some (Ok (d, x, y)) /\
    a * x + b * y = d /\
    d = if gcd_nonneg_case a b then Z.gcd a b else - Z.gcd a b.
Proof.
  induction fuel as [|fuel IH]; intros a b Hfuel; [lia|].
  simpl. destruct (Z.eqb_spec b 0) as [->|Hb].
  - exists a, 1, 0. split; [reflexivity|]. split; [ring|].
    unfold gcd_nonneg_case. rewrite Z.gcd_0_r. simpl.
    destruct (Z.leb_spec 0 a); lia.
  - rewrite mod_nonzero, floordiv_nonzero by assumption.
    assert (Hr : Z.abs (a mod b) < Z.abs b).
    { destruct (Z.lt_ge_cases 0 b).
      - pose proof (Z.mod_pos_bound a b); lia.
      - pose proof (Z.mod_neg_bound a b); lia. }
    destruct (IH b (a mod b)) as (d & x1 & y1 & E & Hbez & Hd); [lia|].
    rewrite E. simpl.
    exists d, y1, (x1 - a / b * y1). split; [reflexivity|]. split.
    + rewrite <- Hbez. rewrite (Z.mod_eq a b) by assumption. ring.
    + rewrite Hd. rewrite Z.gcd_comm, Z.gcd_mod by assumption.
      rewrite (Z.gcd_comm b a).
      unfold gcd_nonneg_case.
      destruct (Z.lt_ge_cases 0 b) as [Hpos|Hneg].
      * pose proof (Z.mod_pos_bound a b Hpos).
        replace (0 <? b) with true by (symmetry; apply Z.ltb_lt; lia).
        replace (0 <? a mod b) with (negb (a mod b =? 0))
          by (destruct (Z.eqb_spec (a mod b) 0), (Z.ltb_spec 0 (a mod b));
              simpl; lia).
        replace (0 <=? b) with true by (symmetry; apply Z.leb_le; lia).
        simpl. destruct (a mod b =? 0); reflexivity.
      * pose proof (Z.mod_neg_bound a b ltac:(lia)).
        replace (0 <? b) with false by (symmetry; apply Z.ltb_ge; lia).
        replace (b =? 0) with false by (symmetry; apply Z.eqb_neq; lia).
        replace (0 <? a mod b) with false by (symmetry; apply Z.ltb_ge; lia).
        replace (0 <=? b) with false by (symmetry; apply Z.leb_gt; lia).
        simpl. rewrite andb_false_r. reflexivity.
Qed.

Lemma extended_gcd_spec (a b : Z) :
  exists d x y,
    extended_gcd a b = Ok (d, x, y) /\
    a * x + b * y = d /\
    d = if gcd_nonneg_case a b then Z.gcd a b else - Z.gcd a b.
Proof.
  destruct (extended_gcd_fuel_spec (S (Z.abs_nat b)) a b)
    as (d & x & y & E & H); [lia|].
  exists d, x, y. unfold extended_gcd. rewrite E. auto.
Qed.

(** On the absolute values that [find_particular_solution] passes, the
    returned gcd is the non-negative one. *)
Lemma extended_gcd_abs (a b : Z) :
  exists x y,
    extended_gcd (Z.abs a) (Z.abs b)
      = Ok (Z.gcd (Z.abs a) (Z.abs b), x, y) /\
    Z.abs a * x + Z.abs b * y = Z.gcd (Z.abs a) (Z.abs b).
Proof.
  destruct (extended_gcd_spec (Z.abs a) (Z.abs b))
    as (d & x & y & E & Hbez & Hd).
  assert (Hs : gcd_nonneg_case (Z.abs a) (Z.abs b) = true).
  { unfold gcd_nonneg_case.
    destruct (Z.ltb_spec 0 (Z.abs b)); [reflexivity|].
    replace (Z.abs b =? 0) with true by (symmetry; apply Z.eqb_eq; lia).
    replace (0 <=? Z.abs a) with true by (symmetry; apply Z.leb_le; lia).
    reflexivity. }
  rewrite Hs in Hd. exists x, y. rewrite E, <- Hd. split; [reflexivity|lia].
Qed.

(** C10: [extended_gcd] is total.  For all integers [a] and [b] the recursion
    ends within [|b| + 1] levels with a triple, whatever larger depth is
    allowed, and no division by zero or other exception is raised: [a % b]
    and [a // b] are only reached with [b <> 0]. *)
Theorem extended_gcd_terminates (a b : Z) :
  exists r : Z * Z * Z,
    (forall fuel, (Z.abs_nat b < fuel)%nat ->
                  extended_gcd_fuel fuel a b = Some (Ok r)) /\
    extended_gcd a b = Ok r.
Proof.
  destruct (extended_gcd_fuel_spec (S (Z.abs_nat b)) a b)
    as (d & x & y & E & _); [lia|].
  exists (d, x, y). split.
  - intros fuel Hfuel. apply (extended_gcd_fuel_mono _ _ _ _ E). lia.
  - unfold extended_gcd. rewrite E. reflexivity.
Qed.

Lemma extended_gcd_terminates_witness :
  (Z.abs_nat 46 < 60)%nat /\
  exists r, extended_gcd_fuel 60 240 46 = Some (Ok r) /\
            extended_gcd 240 46 = Ok r.
Proof.
  split; [vm_compute; lia|].
  destruct (extended_gcd_terminates 240 46) as [r [Hfuel Hr]].
  exists r. split; [apply Hfuel; vm_compute; lia | exact Hr].
Defined.

(** C6, as stated, fails: on [(-4, 0)] the value returned as gcd is [-4],
    which is neither [gcd(|-4|,|0|) = 4] nor non-negative. *)
Lemma extended_gcd_negative_gcd :
  extended_gcd (-4) 0 = Ok (-4, 1, 0) /\
  -4 <> Z.gcd (Z.abs (-4)) (Z.abs 0) /\
  ~ 0 <= -4.
Proof. split; [reflexivity|]. split; [discriminate | lia]. Qed.

(** C6, amended: for all integers [a], [b] (zero and negative included)
    [extended_gcd a b] returns [(d, x, y)] with [a*x + b*y = d] and
    [|d| = gcd(|a|,|b|)]; [d] is [gcd(|a|,|b|) >= 0] when [b > 0], or
    [b = 0] and [a >= 0], and it is [- gcd(|a|,|b|)] otherwise. *)
Theorem extended_gcd_bezout (a b : Z) :
  exists d x y,
    extended_gcd a b = Ok (d, x, y) /\
    a * x + b * y = d /\
    Z.abs d = Z.gcd (Z.abs a) (Z.abs b) /\
    d = if gcd_nonneg_case a b
        then Z.gcd (Z.abs a) (Z.abs b)
        else - Z.gcd (Z.abs a) (Z.abs b).
Proof.
  destruct (extended_gcd_spec a b) as (d & x & y & E & Hbez & Hd).
  exists d, x, y. rewrite Z.gcd_abs_l, Z.gcd_abs_r.
  pose proof (Z.gcd_nonneg a b).
  repeat split; try assumption.
  destruct (gcd_nonneg_case a b); lia.
Qed.

(** ** [find_particular_solution] *)

Lemma find_particular_solution_both_zero (c : Z) :
  find_particular_solution 0 0 c = Raise ZeroDivisionError.
Proof. reflexivity. Qed.

Lemma find_particular_solution_infeasible (a b c : Z) :
  0 < Z.gcd (Z.abs a) (Z.abs b) ->
  c mod Z.gcd (Z.abs a) (Z.abs b) <> 0 ->
  find_particular_solution a b c = Raise ValueError.
Proof.
  intros Hg Hc. unfold find_particular_solution.
  destruct (extended_gcd_abs a b) as (x & y & E & _). rewrite E. simpl.
  rewrite mod_nonzero by lia. simpl.
  destruct (Z.eqb_spec (c mod Z.gcd (Z.abs a) (Z.abs b)) 0); [contradiction|].
  reflexivity.
Qed.

Lemma find_particular_solution_feasible (a b c : Z) :
  feasible a b c ->
  exists x0 y0,
    find_particular_solution a b c = Ok (x0, y0) /\ a * x0 + b * y0 = c.
Proof.
  intros [Hg Hc]. unfold find_particular_solution.
  destruct (extended_gcd_abs a b) as (x & y & E & Hbez). rewrite E. simpl.
  set (g := Z.gcd (Z.abs a) (Z.abs b)) in *.
  rewrite mod_nonzero, floordiv_nonzero by lia. simpl.
  rewrite Hc. simpl.
  eexists _, _. split; [reflexivity|].
  assert (Hq : c = g * (c / g)).
  { rewrite (Z.div_mod c g) at 1 by lia. lia. }
  set (q := c / g) in *.
  assert (Hsum : Z.abs a * (x * q) + Z.abs b * (y * q) = c).
  { rewrite Hq at 1. rewrite <- Hbez. ring. }
  destruct (Z.ltb_spec a 0), (Z.ltb_spec b 0);
    rewrite <- Hsum;
    repeat match goal with
           | H : ?z < 0 |- context [Z.abs ?z] =>
               rewrite (Z.abs_neq z) by lia
           | H : 0 <= ?z |- context [Z.abs ?z] =>
               rewrite (Z.abs_eq z) by lia
           end; ring.
Qed.

(** C1: for all integers [a], [b], [c] of any sign with
    [d = gcd(|a|,|b|) > 0] and [c mod d = 0], [find_particular_solution]
    returns a pair [(x0, y0)] with [a*x0 + b*y0 = c]. *)
Theorem find_particular_solution_correct (a b c : Z) :
  0 < Z.gcd (Z.abs a) (Z.abs b) ->
  c mod Z.gcd (Z.abs a) (Z.abs b) = 0 ->
  exists x0 y0,
    find_particular_solution a b c = Ok (x0, y0) /\ a * x0 + b * y0 = c.
Proof.
  intros Hg Hc. apply find_particular_solution_feasible. split; assumption.
Qed.

Lemma find_particular_solution_correct_witness :
  0 < Z.gcd (Z.abs (-4)) (Z.abs (-6)) /\
  10 mod Z.gcd (Z.abs (-4)) (Z.abs (-6)) = 0 /\
  exists x0 y0,
    find_particular_solution (-4) (-6) 10 = Ok (x0, y0) /\
    -4 * x0 + -6 * y0 = 10.
Proof.
  split; [reflexivity|]. split; [reflexivity|].
  apply (find_particular_solution_correct (-4) (-6) 10); reflexivity.
Defined.

(** ** [find_min_t_range] *)

Lemma gcd_pos_of_feasible (a b c : Z) : feasible a b c -> 0 < Z.gcd a b.
Proof. intros [Hg _]. rewrite Z.gcd_abs_l, Z.gcd_abs_r in Hg. exact Hg. Qed.

Lemma div_gcd_zero_l (a b : Z) : 0 < Z.gcd a b -> (a / Z.gcd a b = 0 <-> a = 0).
Proof.
  intros Hg. destruct (Z.gcd_divide_l a b) as [k Hk].
  split; intros H.
  - rewrite Hk in H at 1. rewrite Z.div_mul in H by lia. subst k. lia.
  - subst a. apply Z.div_0_l. lia.
Qed.

Lemma div_gcd_zero_r (a b : Z) : 0 < Z.gcd a b -> (b / Z.gcd a b = 0 <-> b = 0).
Proof. rewrite Z.gcd_comm. apply div_gcd_zero_l. Qed.

(** Without a target point, a zero coefficient always ends in a division by
    zero ([y0 // (a // d)] or [x0 // (b // d)]) once the particular solution
    exists. *)
Lemma find_min_t_range_zero_coefficient (a b c : Z) :
  feasible a b c -> a = 0 \/ b = 0 ->
  find_min_t_range a b c None None = Raise ZeroDivisionError.
Proof.
  intros Hf Hz. pose proof (gcd_pos_of_feasible _ _ _ Hf) as Hg.
  destruct (find_particular_solution_feasible _ _ _ Hf) as (x0 & y0 & E & _).
  unfold find_min_t_range. rewrite E. simpl.
  rewrite (floordiv_nonzero b) by lia. simpl.
  destruct (Z.eq_dec b 0) as [Hb|Hb].
  - rewrite (proj2 (div_gcd_zero_r a b Hg) Hb). reflexivity.
  - destruct Hz as [Ha|?]; [|contradiction].
    rewrite floordiv_nonzero by (rewrite div_gcd_zero_r; assumption).
    simpl. rewrite (floordiv_nonzero a) by lia. simpl.
    rewrite (proj2 (div_gcd_zero_l a b Hg) Ha). reflexivity.
Qed.

(** With both coefficients non-zero the estimate is returned, and it is at
    least the floor of 50. *)
Lemma find_min_t_range_regular (a b c : Z) :
  feasible a b c -> a <> 0 -> b <> 0 ->
  exists T, find_min_t_range a b c None None = Ok T /\ 50 <= T.
Proof.
  intros Hf Ha Hb. pose proof (gcd_pos_of_feasible _ _ _ Hf) as Hg.
  destruct (find_particular_solution_feasible _ _ _ Hf) as (x0 & y0 & E & _).
  unfold find_min_t_range. rewrite E. simpl.
  rewrite (floordiv_nonzero b) by lia. simpl.
  rewrite floordiv_nonzero by (rewrite div_gcd_zero_r; assumption). simpl.
  rewrite (floordiv_nonzero a) by lia. simpl.
  rewrite floordiv_nonzero by (rewrite div_gcd_zero_l; assumption). simpl.
  eexists. split; [reflexivity|]. lia.
Qed.

(** C4 fails on the code: with [a = 0] (equation [0x + 5y = 10]) or [b = 0]
    the range estimator divides by [a // d = 0] or [b // d = 0], also when a
    target point is given and [b = 0]; with [a = b = 0]
    [find_particular_solution] evaluates [c % 0].  Each call ends in an
    uncaught [ZeroDivisionError]. *)
Theorem zero_coefficients_divide_by_zero :
  find_min_t_range 0 5 10 None None = Raise ZeroDivisionError /\
  find_min_t_range 5 0 10 None None = Raise ZeroDivisionError /\
  find_min_t_range 5 0 10 (Some 2) (Some 0) = Raise ZeroDivisionError /\
  find_min_t_range 0 0 0 None None = Raise ZeroDivisionError /\
  find_particular_solution 0 0 0 = Raise ZeroDivisionError /\
  find_particular_solution 0 0 1 = Raise ZeroDivisionError.
Proof. repeat split; reflexivity. Qed.

(** ** Lists: loops, ranges, slices, the sort *)

Lemma for_each_map {A B C : Type} (f : B -> result C) (g : A -> B) l :
  Py.for_each f (map g l) = Py.for_each (fun x => f (g x)) l.
Proof.
  induction l as [|x l IH]; simpl; [reflexivity|]. rewrite IH. reflexivity.
Qed.

Lemma for_each_ext_in {A B : Type} (f g : A -> result B) l :
  (forall x, In x l -> f x = g x) -> Py.for_each f l = Py.for_each g l.
Proof.
  induction l as [|x l IH]; intros H; simpl; [reflexivity|].
  rewrite (H x) by (left; reflexivity).
  rewrite IH by (intros; apply H; right; assumption). reflexivity.
Qed.

Lemma for_each_Ok {A B : Type} (f : A -> result B) l ys :
  Py.for_each f l = Ok ys -> Forall2 (fun x y => f x = Ok y) l ys.
Proof.
  revert ys. induction l as [|x l IH]; simpl; intros ys H.
  - injection H as <-. constructor.
  - apply bind_Ok_inv in H as (y & Hy & H).
    apply bind_Ok_inv in H as (ys' & Hys & H).
    injection H as <-. constructor; auto.
Qed.

Lemma for_each_Raise {A B : Type} (f : A -> result B) l e :
  Py.for_each f l = Raise e -> exists x, In x l /\ f x = Raise e.
Proof.
  induction l as [|x l IH]; simpl; intros H; [discriminate|].
  destruct (f x) as [y|e'] eqn:Ex; simpl in H.
  - destruct (Py.for_each f l) as [ys|e'']; simpl in H; [discriminate|].
    destruct (IH H) as (x' & Hin & Hx'). exists x'. auto.
  - injection H as ->. exists x. auto.
Qed.

Lemma for_each_total {A B : Type} (f : A -> result B) l :
  (forall x, In x l -> exists y, f x = Ok y) ->
  exists ys, Py.for_each f l = Ok ys.
Proof.
  induction l as [|x l IH]; intros H; simpl; [eexists; reflexivity|].
  destruct (H x) as [y ->]; [left; reflexivity|].
  destruct IH as [ys ->]; [intros; apply H; right; assumption|].
  simpl. eexists; reflexivity.
Qed.

Lemma range_In lo hi t : In t (Py.range lo hi) <-> lo <= t < hi.
Proof.
  unfold Py.range. rewrite in_map_iff. split.
  - intros (i & <- & Hi). apply in_seq in Hi. lia.
  - intros H. exists (Z.to_nat (t - lo)). split; [lia|]. apply in_seq. lia.
Qed.

Lemma range_length lo hi : length (Py.range lo hi) = Z.to_nat (hi - lo).
Proof. unfold Py.range. rewrite length_map, length_seq. reflexivity. Qed.

Lemma range_increasing lo hi : StronglySorted Z.lt (Py.range lo hi).
Proof.
  unfold Py.range. generalize (Z.to_nat (hi - lo)) as n. intros n.
  assert (H : forall start, StronglySorted Z.lt
            (map (fun i => lo + Z.of_nat i) (seq start n))).
  { induction n as [|n IH]; intros start; simpl; constructor; [apply IH|].
    apply Forall_forall. intros z Hz. apply in_map_iff in Hz as (i & <- & Hi).
    apply in_seq in Hi. lia. }
  apply H.
Qed.

Lemma slice_to_firstn {A : Type} (l : list A) k :
  exists n, Py.slice_to l k = firstn n l.
Proof. unfold Py.slice_to. destruct (0 <=? k); eexists; reflexivity. Qed.

Lemma slice_to_length {A : Type} (l : list A) k :
  0 <= k -> length (Py.slice_to l k) = Nat.min (Z.to_nat k) (length l).
Proof.
  intros Hk. unfold Py.slice_to.
  replace (0 <=? k) with true by (symmetry; apply Z.leb_le; assumption).
  apply length_firstn.
Qed.

Lemma insert_by_perm {A : Type} (lt : A -> A -> bool) x l :
  Permutation (insert_by lt x l) (x :: l).
Proof.
  induction l as [|y l IH]; simpl; [reflexivity|].
  destruct (lt y x); [|reflexivity].
  rewrite IH. apply perm_swap.
Qed.

Lemma sort_by_perm {A : Type} (lt : A -> A -> bool) l :
  Permutation (sort_by lt l) l.
Proof.
  induction l as [|x l IH]; simpl; [reflexivity|].
  rewrite insert_by_perm. constructor. exact IH.
Qed.

Lemma StronglySorted_map {A B : Type} (f : A -> B)
      (R : A -> A -> Prop) (S : B -> B -> Prop) l :
  (forall x y, R x y -> S (f x) (f y)) ->
  StronglySorted R l -> StronglySorted S (map f l).
Proof.
  intros HRS. induction 1 as [|x l Hl IH Hx]; simpl; constructor; [exact IH|].
  apply Forall_map. revert Hx. apply Forall_impl. intros y. apply HRS.
Qed.

Lemma firstn_In {A : Type} (x : A) n l : In x (firstn n l) -> In x l.
Proof.
  intros H. rewrite <- (firstn_skipn n l). apply in_or_app. left; exact H.
Qed.

Lemma StronglySorted_firstn {A : Type} (R : A -> A -> Prop) n l :
  StronglySorted R l -> StronglySorted R (firstn n l).
Proof.
  intros H. revert n. induction H as [|x l Hl IH Hx]; intros [|n]; simpl;
    try constructor; [apply IH|].
  apply Forall_forall. intros y Hy.
  rewrite Forall_forall in Hx. apply Hx. eapply firstn_In; eassumption.
Qed.

Lemma StronglySorted_split {A : Type} (R : A -> A -> Prop) l1 l2 :
  StronglySorted R (l1 ++ l2) ->
  forall x y, In x l1 -> In y l2 -> R x y.
Proof.
  induction l1 as [|z l1 IH]; simpl; intros H x y Hx Hy; [contradiction|].
  inversion H as [|? ? Hl Hz]; subst.
  destruct Hx as [->|Hx].
  - rewrite Forall_forall in Hz. apply Hz. apply in_or_app. right; assumption.
  - apply IH; assumption.
Qed.

(** The sort is stable: when [lt] compares the elements of [l] as the integer
    keys [kz] order them, and [l] comes in increasing [pos], the result is
    ordered by [kz], and by [pos] among equal keys. *)
Section StableSort.

Context {A : Type} (lt : A -> A -> bool) (kz pos : A -> Z).

Lemma insert_by_sorted x l :
  (forall y, In y l -> lt y x = (kz y <? kz x)) ->
  (forall y, In y l -> pos x < pos y) ->
  StronglySorted (before kz pos) l ->
  StronglySorted (before kz pos) (insert_by lt x l).
Proof.
  intros Hlt Hpos Hl. induction Hl as [|y l Hl IH Hy]; simpl.
  - repeat constructor.
  - rewrite (Hlt y) by (left; reflexivity).
    assert (IH' : StronglySorted (before kz pos) (insert_by lt x l)).
    { apply IH; intros; [apply Hlt | apply Hpos]; right; assumption. }
    pose proof (Hpos y (or_introl eq_refl)) as Hxy.
    destruct (Z.ltb_spec (kz y) (kz x)) as [Hk|Hk].
    + constructor; [exact IH'|].
      apply Forall_forall. intros z Hz.
      apply (Permutation_in _ (insert_by_perm lt x l)) in Hz.
      destruct Hz as [<-|Hz]; [left; assumption|].
      rewrite Forall_forall in Hy. auto.
    + constructor; [constructor; assumption|].
      apply Forall_forall. intros z [<-|Hz].
      * unfold before. lia.
      * rewrite Forall_forall in Hy. specialize (Hy z Hz).
        pose proof (Hpos z (or_intror Hz)).
        unfold before in *. lia.
Qed.

Lemma sort_by_sorted l :
  (forall x y, In x l -> In y l -> lt x y = (kz x <? kz y)) ->
  StronglySorted (fun x y => pos x < pos y) l ->
  StronglySorted (before kz pos) (sort_by lt l).
Proof.
  intros Hlt Hl. induction Hl as [|x l Hl IH Hx]; simpl; [constructor|].
  apply insert_by_sorted.
  - intros y Hy. apply (Permutation_in _ (sort_by_perm lt l)) in Hy.
    apply Hlt; [right; assumption | left; reflexivity].
  - intros y Hy. apply (Permutation_in _ (sort_by_perm lt l)) in Hy.
    rewrite Forall_forall in Hx. auto.
  - apply IH. intros; apply Hlt; right; assumption.
Qed.

End StableSort.

(** ** [generate_solutions] *)

Section Enumerator.

Context {F : FloatOps}.

Lemma math_sqrt_Raise n e :
  math_sqrt n = Raise e -> e = OverflowError \/ (n < 0 /\ e = ValueError).
Proof.
  unfold math_sqrt. destruct (float_of_int n); simpl.
  - destruct (Z.ltb_spec n 0) as [Hn|Hn]; [|discriminate].
    intros He; injection He as <-. auto.
  - intros He; injection He as <-. auto.
Qed.

Lemma sq_dist_nonneg s : 0 <= sq_dist s.
Proof. destruct s as [[x y] t]. simpl. nia. Qed.

Lemma decorate_Ok cs sols : decorate cs = Ok sols -> map fst sols = cs.
Proof.
  intros H. apply for_each_Ok in H.
  induction H as [|s s4 cs sols Hs _ IH]; simpl; [reflexivity|].
  apply bind_Ok_inv in Hs as (dist & _ & Hs). injection Hs as <-.
  simpl. rewrite IH. reflexivity.
Qed.

Lemma decorate_keys cs sols :
  decorate cs = Ok sols ->
  forall s4, In s4 sols -> math_sqrt (sq_dist (fst s4)) = Ok (snd s4).
Proof.
  intros H. apply for_each_Ok in H.
  induction H as [|s s4 cs sols Hs _ IH]; simpl; [contradiction|].
  intros s4' [<-|Hin]; [|auto].
  apply bind_Ok_inv in Hs as (dist & Hd & Hs). injection Hs as <-.
  exact Hd.
Qed.

Lemma decorate_Raise cs e : decorate cs = Raise e -> e = OverflowError.
Proof.
  intros H. apply for_each_Raise in H as (s & _ & Hs).
  destruct (math_sqrt (sq_dist s)) as [d|e'] eqn:E; simpl in Hs;
    [discriminate|].
  injection Hs as ->. apply math_sqrt_Raise in E as [E|[Hneg _]]; [exact E|].
  pose proof (sq_dist_nonneg s). lia.
Qed.

Lemma decorate_total cs :
  sqrt_exact_on cs -> exists sols, decorate cs = Ok sols.
Proof.
  intros Hex. apply for_each_total. intros s Hs.
  destruct (Hex s s Hs Hs) as (f1 & _ & -> & _). simpl. eexists; reflexivity.
Qed.

(** On a feasible equation the function is: decorate the candidates, sort
    on the key, cut, and drop the key. *)
Lemma generate_solutions_feasible (a b c t_range max_solutions : Z) :
  feasible a b c ->
  generate_solutions a b c t_range max_solutions =
    (sols <- decorate (candidates a b c t_range) ;;
     Ok (map fst (Py.slice_to (sort_by_key snd sols) max_solutions))).
Proof.
  intros Hf. pose proof (gcd_pos_of_feasible _ _ _ Hf) as Hg.
  destruct (find_particular_solution_feasible _ _ _ Hf) as (x0 & y0 & E & _).
  unfold generate_solutions, candidates, decorate. rewrite E.
  rewrite for_each_map.
  rewrite (for_each_ext_in (solution_at a b (Z.gcd a b) x0 y0)
             (fun t => dist <- math_sqrt
                                 (sq_dist (x0 + b / Z.gcd a b * t,
                                           y0 - a / Z.gcd a b * t, t)) ;;
                       Ok (x0 + b / Z.gcd a b * t,
                           y0 - a / Z.gcd a b * t, t, dist))).
  - destruct (Py.for_each _ _) as [sols|e]; simpl; [|reflexivity].
    f_equal. apply map_ext. intros [[[x y] t] d]. reflexivity.
  - intros t _. unfold solution_at.
    rewrite !floordiv_nonzero by lia. reflexivity.
Qed.

Lemma candidates_on_line (a b c t_range : Z) :
  feasible a b c ->
  forall x y t, In (x, y, t) (candidates a b c t_range) -> a * x + b * y = c.
Proof.
  intros Hf x y t Hin. pose proof (gcd_pos_of_feasible _ _ _ Hf) as Hg.
  destruct (find_particular_solution_feasible _ _ _ Hf) as (x0 & y0 & E & Hc).
  unfold candidates in Hin. rewrite E in Hin.
  apply in_map_iff in Hin as (t' & Heq & _). injection Heq as <- <- <-.
  destruct (Z.gcd_divide_l a b) as [ka Hka].
  destruct (Z.gcd_divide_r a b) as [kb Hkb].
  set (g := Z.gcd a b) in *.
  assert (Ha : a / g = ka) by (rewrite Hka at 1; apply Z.div_mul; lia).
  assert (Hb : b / g = kb) by (rewrite Hkb at 1; apply Z.div_mul; lia).
  assert (Hab : a * kb = b * ka).
  { rewrite Hka at 1. rewrite Hkb at 1. ring. }
  rewrite Ha, Hb, <- Hc.
  replace (a * (x0 + kb * t') + b * (y0 - ka * t'))
    with (a * x0 + b * y0 + t' * (a * kb - b * ka)) by ring.
  rewrite Hab. ring.
Qed.

Lemma candidates_length (a b c t_range : Z) :
  feasible a b c -> 0 <= t_range ->
  length (candidates a b c t_range) = Z.to_nat (2 * t_range + 1).
Proof.
  intros Hf HT.
  destruct (find_particular_solution_feasible _ _ _ Hf) as (x0 & y0 & E & _).
  unfold candidates. rewrite E, length_map, range_length. f_equal. lia.
Qed.

Lemma candidates_increasing (a b c t_range : Z) :
  StronglySorted (fun s1 s2 => param s1 < param s2) (candidates a b c t_range).
Proof.
  unfold candidates. destruct (find_particular_solution a b c) as [[x0 y0]|e];
    [|constructor].
  apply (StronglySorted_map _ Z.lt); [|apply range_increasing].
  intros t1 t2 H. exact H.
Qed.

(** What is returned is a selection of the candidates. *)
Lemma generate_solutions_subset (a b c t_range max_solutions : Z) l :
  feasible a b c ->
  generate_solutions a b c t_range max_solutions = Ok l ->
  forall s, In s l -> In s (candidates a b c t_range).
Proof.
  intros Hf H s Hs. rewrite generate_solutions_feasible in H by assumption.
  apply bind_Ok_inv in H as (sols & Hdec & H). injection H as <-.
  destruct (slice_to_firstn (sort_by_key snd sols) max_solutions) as [n Hn].
  rewrite Hn in Hs. apply in_map_iff in Hs as (s4 & <- & Hs4).
  apply firstn_In in Hs4.
  apply (Permutation_in _ (sort_by_perm _ sols)) in Hs4.
  rewrite <- (decorate_Ok _ _ Hdec). apply in_map. exact Hs4.
Qed.

Lemma generate_solutions_Raise (a b c t_range max_solutions : Z) e :
  feasible a b c ->
  generate_solutions a b c t_range max_solutions = Raise e ->
  e = OverflowError.
Proof.
  intros Hf H. rewrite generate_solutions_feasible in H by assumption.
  destruct (decorate _) as [sols|e'] eqn:E; simpl in H; [discriminate|].
  injection H as ->. eapply decorate_Raise; eassumption.
Qed.

Lemma StronglySorted_map_inv {A B : Type} (f : A -> B)
      (R : B -> B -> Prop) l :
  StronglySorted R (map f l) -> StronglySorted (fun x y => R (f x) (f y)) l.
Proof.
  induction l as [|x l IH]; simpl; intros H; [constructor|].
  apply StronglySorted_inv in H as [Hl Hx].
  constructor; [auto|]. rewrite Forall_map in Hx. exact Hx.
Qed.

(** When the keys are exact on the candidates, the sort arranges them by
    distance, then by parameter, and the result is the front of that
    arrangement. *)
Lemma generate_solutions_prefix (a b c t_range max_solutions : Z) :
  feasible a b c ->
  sqrt_exact_on (candidates a b c t_range) ->
  exists (L : list (Z * Z * Z)) (n : nat),
    generate_solutions a b c t_range max_solutions = Ok (firstn n L) /\
    Permutation L (candidates a b c t_range) /\
    StronglySorted closer_or_earlier L /\
    (0 <= max_solutions -> n = Z.to_nat max_solutions).
Proof.
  intros Hf Hex. rewrite generate_solutions_feasible by assumption.
  destruct (decorate_total _ Hex) as [sols Hdec]. rewrite Hdec. simpl.
  pose proof (decorate_Ok _ _ Hdec) as Hfst.
  pose proof (decorate_keys _ _ Hdec) as Hkeys.
  exists (map fst (sort_by_key snd sols)).
  assert (Hn : exists n, Py.slice_to (sort_by_key snd sols) max_solutions
                         = firstn n (sort_by_key snd sols) /\
                         (0 <= max_solutions -> n = Z.to_nat max_solutions)).
  { unfold Py.slice_to. destruct (Z.leb_spec 0 max_solutions).
    - eexists; split; [reflexivity|]. reflexivity.
    - eexists; split; [reflexivity|]. lia. }
  destruct Hn as (n & -> & Hn). exists n.
  split; [rewrite firstn_map; reflexivity|].
  split; [rewrite <- Hfst; apply Permutation_map, sort_by_perm|].
  split; [|exact Hn].
  apply (StronglySorted_map fst
           (before (fun s4 => sq_dist (fst s4)) (fun s4 => param (fst s4)))).
  { intros x y H. exact H. }
  apply sort_by_sorted.
  - intros x y Hx Hy.
    destruct (Hex (fst x) (fst y)) as (f1 & f2 & H1 & H2 & Hlt);
      try (rewrite <- Hfst; apply in_map; assumption).
    rewrite (Hkeys x Hx) in H1. rewrite (Hkeys y Hy) in H2.
    injection H1 as <-. injection H2 as <-. exact Hlt.
  - apply (StronglySorted_map_inv fst (fun s1 s2 => param s1 < param s2)).
    rewrite Hfst. apply candidates_increasing.
Qed.

Lemma closer_or_earlier_le s1 s2 :
  closer_or_earlier s1 s2 -> sq_dist s1 <= sq_dist s2.
Proof. unfold closer_or_earlier. lia. Qed.

(** An infeasible equation with a non-zero gcd is answered by the empty
    list. *)
Lemma generate_solutions_infeasible (a b c t_range max_solutions : Z) :
  0 < Z.gcd (Z.abs a) (Z.abs b) ->
  c mod Z.gcd (Z.abs a) (Z.abs b) <> 0 ->
  generate_solutions a b c t_range max_solutions = Ok [].
Proof.
  intros Hg Hc. unfold generate_solutions.
  rewrite find_particular_solution_infeasible by assumption. reflexivity.
Qed.

(** A feasible equation is never answered by the empty list when
    [t_range >= 0] and [max_solutions >= 1]. *)
Lemma generate_solutions_feasible_nonempty (a b c t_range max_solutions : Z) :
  feasible a b c -> 0 <= t_range -> 1 <= max_solutions ->
  generate_solutions a b c t_range max_solutions <> Ok [].
Proof.
  intros Hf HT Hk H. rewrite generate_solutions_feasible in H by assumption.
  apply bind_Ok_inv in H as (sols & Hdec & H). injection H as H.
  apply (f_equal (@length _)) in H.
  rewrite length_map, slice_to_length in H by lia.
  unfold sort_by_key in H.
  rewrite (Permutation_length (sort_by_perm _ sols)) in H.
  rewrite <- (length_map fst), (decorate_Ok _ _ Hdec) in H.
  rewrite candidates_length in H by assumption.
  change (length (@nil (Z * Z * Z))) with 0%nat in H. lia.
Qed.

(** With [a = b = 0] the call ends in the [ZeroDivisionError] of [c % 0],
    which [except ValueError] does not catch. *)
Lemma generate_solutions_both_zero (c t_range max_solutions : Z) :
  generate_solutions 0 0 c t_range max_solutions = Raise ZeroDivisionError.
Proof. reflexivity. Qed.

End Enumerator.

(** ** [calculate_window_size] *)

Section WindowSizer.

Context {F : FloatOps}.

Lemma plot_extent_Ok s :
  (6 <= length s)%nat ->
  exists s4 s5, nth_error s 4 = Some s4 /\ nth_error s 5 = Some s5 /\
                plot_extent s = Ok (Z.max (Z.abs s4) (Z.abs s5)).
Proof.
  intros Hlen.
  destruct (nth_error s 4) as [s4|] eqn:E4;
    [|apply nth_error_None in E4; lia].
  destruct (nth_error s 5) as [s5|] eqn:E5;
    [|apply nth_error_None in E5; lia].
  exists s4, s5. unfold plot_extent, Py.index. rewrite E4, E5. auto.
Qed.

Lemma plot_extent_short s :
  (length s < 6)%nat -> plot_extent s = Raise IndexError.
Proof.
  intros Hlen. unfold plot_extent, Py.index.
  destruct (nth_error s 4) as [s4|]; [|reflexivity].
  destruct (nth_error s 5) as [s5|] eqn:E5; [|reflexivity].
  assert (nth_error s 5 <> None) as H by congruence.
  apply nth_error_Some in H. lia.
Qed.

Lemma plot_extent_Raise s e : plot_extent s = Raise e -> e = IndexError.
Proof.
  unfold plot_extent, Py.index.
  destruct (nth_error s 4), (nth_error s 5); simpl; intros H;
    first [discriminate | injection H as <-; reflexivity].
Qed.

Lemma max_of_spec x l :
  (forall y, In y (x :: l) -> y <= max_of x l) /\ In (max_of x l) (x :: l).
Proof.
  unfold max_of. revert x. induction l as [|z l IH]; intros x; simpl.
  - split; [intros y [<-|[]]; lia | auto].
  - destruct (IH (Z.max x z)) as [Hle Hin]. split.
    + pose proof (Hle (Z.max x z) (or_introl eq_refl)) as Hxz.
      intros y [Hy|[Hy|Hy]]; [lia | lia |].
      apply Hle. right; assumption.
    + destruct Hin as [Hin|Hin]; [|auto].
      rewrite <- Hin. destruct (Z.max_spec x z) as [[_ ->]|[_ ->]]; auto.
Qed.

Lemma extents_max sols es :
  Forall2 (fun s e => plot_extent s = Ok e) sols es ->
  forall m, (forall e, In e es -> e <= m) -> In m es ->
  is_max_extent m sols.
Proof.
  intros H m Hle Hin. split.
  - clear Hin. induction H as [|s e sols es Hs _ IH]; constructor.
    + unfold plot_extent, Py.index in Hs.
      destruct (nth_error s 4) as [s4|]; [|discriminate].
      destruct (nth_error s 5) as [s5|]; [|discriminate].
      injection Hs as <-. exists s4, s5.
      specialize (Hle _ (or_introl eq_refl)). repeat split; lia.
    + apply IH. intros; apply Hle; right; assumption.
  - clear Hle. induction H as [|s e sols es Hs _ IH]; [contradiction|].
    destruct Hin as [->|Hin]; [|right; auto].
    left. unfold plot_extent, Py.index in Hs.
    destruct (nth_error s 4) as [s4|]; [|discriminate].
    destruct (nth_error s 5) as [s5|]; [|discriminate].
    injection Hs as <-. exists s4, s5. repeat split; lia.
Qed.

(** The structure of [calculate_window_size], whatever the floats do. *)
Lemma calculate_window_size_cases (sols : list (list Z)) :
  (sols = [] -> calculate_window_size sols = Ok 10) /\
  (sols <> [] -> Forall (fun s => (6 <= length s)%nat) sols ->
   exists m, is_max_extent m sols /\
             calculate_window_size sols = times_1_2 m) /\
  (Exists (fun s => (length s < 6)%nat) sols ->
   calculate_window_size sols = Raise IndexError).
Proof.
  split; [intros ->; reflexivity|]. split.
  - intros Hne Hall. destruct sols as [|s0 sols]; [contradiction|].
    unfold calculate_window_size.
    destruct (for_each_total plot_extent (s0 :: sols)) as [es Hes].
    { intros s Hs. rewrite Forall_forall in Hall.
      destruct (plot_extent_Ok s (Hall s Hs)) as (s4 & s5 & _ & _ & ->).
      eexists; reflexivity. }
    rewrite Hes. simpl. apply for_each_Ok in Hes.
    destruct es as [|e es]; [inversion Hes|].
    exists (max_of e es). split; [|reflexivity].
    destruct (max_of_spec e es) as [Hle Hin].
    eapply extents_max; eassumption.
  - intros Hex. destruct sols as [|s0 sols]; [inversion Hex|].
    unfold calculate_window_size.
    destruct (Py.for_each plot_extent (s0 :: sols)) as [es|e] eqn:Hes.
    + exfalso. apply for_each_Ok in Hes.
      apply Exists_exists in Hex as (s & Hs & Hlen).
      assert (Hok : exists e, plot_extent s = Ok e).
      { clear Hlen. induction Hes as [|s' e' l es' Hs' _ IH];
          [contradiction|].
        destruct Hs as [<-|Hs]; [eauto | auto]. }
      destruct Hok as [e He]. rewrite plot_extent_short in He by assumption.
      discriminate.
    + simpl. apply for_each_Raise in Hes as (s & _ & Hs).
      apply plot_extent_Raise in Hs. subst e. reflexivity.
Qed.

End WindowSizer.

(** ** Double precision

    The facts below follow the Standard Library's executable rounding
    ([binary_round_aux]: shift the mantissa right to 53 bits, round to
    nearest even, renormalise) on non-negative operands.  They give the two
    properties of the arithmetic that the core relies on: [int(n * 1.2)] is
    never below [n], and [math.sqrt] keeps integers below [2^52] apart and
    in order. *)

Module Binary64Facts.

Import Binary64.

Ltac pow_pos := apply Z.pow_pos_nonneg; lia.
Ltac dlia := Z.div_mod_to_equations; lia.

Lemma digits2_pos_size p : digits2_pos p = Pos.size p.
Proof. induction p; simpl; congruence. Qed.

Lemma Zdigits2_log2 x : 0 < x -> Zdigits2 x = Z.log2 x + 1.
Proof.
  destruct x as [|p|p]; try lia. intros _. simpl.
  rewrite digits2_pos_size. destruct p; simpl; lia.
Qed.

(** [Zdigits2] is the bit length. *)
Lemma Zdigits2_bounds x : 0 < x -> 2 ^ (Zdigits2 x - 1) <= x < 2 ^ Zdigits2 x.
Proof.
  intros Hx. rewrite Zdigits2_log2 by assumption.
  pose proof (Z.log2_spec x Hx).
  replace (Z.log2 x + 1 - 1) with (Z.log2 x) by lia.
  replace (Z.log2 x + 1) with (Z.succ (Z.log2 x)) by lia. assumption.
Qed.

Lemma Zdigits2_unique x k : 0 < k -> 2 ^ (k - 1) <= x < 2 ^ k -> Zdigits2 x = k.
Proof.
  intros Hk H. assert (0 < x) by (pose proof (Z.pow_pos_nonneg 2 (k-1)); lia).
  rewrite Zdigits2_log2 by assumption.
  rewrite (Z.log2_unique x (k - 1)); try lia.
  replace (Z.succ (k - 1)) with k by lia. assumption.
Qed.

Lemma shr_1_m r : 0 <= shr_m r -> shr_m (shr_1 r) = shr_m r / 2.
Proof.
  destruct r as [m rb sb]. cbn [shr_m shr_1]. intros Hm.
  destruct m as [|[p|p|]|p]; cbn [shr_m]; try lia; try reflexivity.
  - rewrite Pos2Z.inj_xI. apply Z.div_unique with 1; lia.
  - rewrite Pos2Z.inj_xO. apply Z.div_unique with 0; lia.
Qed.

(** Shifting a non-negative mantissa right by [p] bits divides it by
    [2^p]. *)
Lemma iter_shr_1_m p : forall r, 0 <= shr_m r ->
  shr_m (iter_pos shr_1 p r) = shr_m r / 2 ^ Z.pos p.
Proof.
  induction p as [p IH|p IH|]; intros r Hr; simpl iter_pos.
  - assert (H1 : 0 <= shr_m (shr_1 r))
      by (rewrite shr_1_m by assumption; apply Z.div_pos; lia).
    assert (H2 : 0 <= shr_m (iter_pos shr_1 p (shr_1 r))).
    { rewrite IH by assumption. apply Z.div_pos; [assumption | pow_pos]. }
    rewrite IH, IH, shr_1_m by assumption.
    rewrite !Z.div_div by (try apply Z.pow_pos_nonneg; lia).
    f_equal. rewrite Pos2Z.inj_xI.
    rewrite <- Z.pow_add_r, <- (Z.pow_1_r 2) at 1 by lia.
    rewrite <- Z.pow_add_r by lia. f_equal. lia.
  - assert (H2 : 0 <= shr_m (iter_pos shr_1 p r)).
    { rewrite IH by assumption. apply Z.div_pos; [assumption | pow_pos]. }
    rewrite IH, IH by assumption.
    rewrite !Z.div_div by (try apply Z.pow_pos_nonneg; lia).
    f_equal. rewrite Pos2Z.inj_xO. rewrite <- Z.pow_add_r by lia. f_equal. lia.
  - rewrite shr_1_m by assumption. reflexivity.
Qed.

Lemma shr_spec r e n : 0 <= shr_m r -> 0 <= n ->
  shr_m (fst (shr r e n)) = shr_m r / 2 ^ n /\ snd (shr r e n) = e + n.
Proof.
  intros Hr Hn. destruct n as [|p|p]; [| |lia].
  - simpl. rewrite Z.div_1_r. lia.
  - unfold shr. cbn [fst snd]. rewrite iter_shr_1_m by assumption. auto.
Qed.

Lemma round_nearest_even_bounds q l :
  q <= round_nearest_even q l <= q + 1.
Proof.
  destruct l as [|[]]; simpl; try lia. destruct (Z.even q); lia.
Qed.

Lemma fexp_normal e : -1074 <= e - 53 -> fexp 53 1024 e = e - 53.
Proof. unfold fexp, emin. lia. Qed.

Lemma shr_record_of_loc_m m l : shr_m (shr_record_of_loc m l) = m.
Proof. destruct l as [|[]]; reflexivity. Qed.

(** Rounding an exact positive mantissa of at least 53 bits, in the normal
    range: the result is not below the truncated mantissa. *)
Lemma binary_round_aux_bounds mx ex :
  0 < mx -> 53 <= Zdigits2 mx -> -1074 <= Zdigits2 mx + ex - 53 ->
  match binary_round_aux 53 1024 false mx ex loc_Exact with
  | S754_finite false m' e' =>
      ex <= e' <= ex + (Zdigits2 mx - 53) + 1 /\
      Z.pos m' < 2 ^ 53 /\
      mx / 2 ^ (Zdigits2 mx - 53) * 2 ^ (Zdigits2 mx - 53)
      <= Z.pos m' * 2 ^ (e' - ex)
  | S754_infinity false => 1024 - 53 < ex + (Zdigits2 mx - 53) + 1
  | _ => False
  end.
Proof.
  intros Hmx Hd Hnorm. set (d := Zdigits2 mx) in *.
  pose proof (Zdigits2_bounds mx Hmx) as Hb. fold d in Hb.
  set (n := d - 53) in *. set (q := mx / 2 ^ n).
  assert (Hpn : 0 < 2 ^ n) by pow_pos.
  assert (Hq : 2 ^ 52 <= q < 2 ^ 53).
  { unfold q. split.
    - apply Z.div_le_lower_bound; [assumption|].
      rewrite <- Z.pow_add_r by lia. replace (n + 52) with (d - 1) by lia. lia.
    - apply Z.div_lt_upper_bound; [assumption|].
      rewrite <- Z.pow_add_r by lia. replace (n + 53) with d by lia. lia. }
  unfold binary_round_aux, shr_fexp. fold d.
  rewrite fexp_normal by lia. replace (d + ex - 53 - ex) with n by lia.
  destruct (shr_spec (shr_record_of_loc mx loc_Exact) ex n) as [Hm1 He1];
    [simpl; lia | lia |].
  destruct (shr (shr_record_of_loc mx loc_Exact) ex n) as [r1 e1].
  cbn [fst snd] in Hm1, He1. rewrite shr_record_of_loc_m in Hm1. fold q in Hm1.
  pose proof (round_nearest_even_bounds (shr_m r1) (loc_of_shr_record r1))
    as Hr.
  set (m1 := round_nearest_even (shr_m r1) (loc_of_shr_record r1)) in *.
  rewrite Hm1 in Hr.
  assert (Hd1 : Zdigits2 m1 = 53 \/ (Zdigits2 m1 = 54 /\ m1 = 2 ^ 53)).
  { destruct (Z.eq_dec m1 (2 ^ 53)) as [->|Hne].
    - right. split; reflexivity.
    - left. apply Zdigits2_unique; lia. }
  assert (Hfexp : fexp 53 1024 (Zdigits2 m1 + e1) = Zdigits2 m1 + e1 - 53).
  { apply fexp_normal. lia. }
  rewrite Hfexp.
  destruct (shr_spec (shr_record_of_loc m1 loc_Exact) e1
              (Zdigits2 m1 + e1 - 53 - e1)) as [Hm2 He2];
    [rewrite shr_record_of_loc_m; lia | lia |].
  destruct (shr (shr_record_of_loc m1 loc_Exact) e1
              (Zdigits2 m1 + e1 - 53 - e1)) as [r2 e2].
  cbn [fst snd] in Hm2, He2. rewrite shr_record_of_loc_m in Hm2.
  assert (Hval : 0 < shr_m r2 < 2 ^ 53 /\ ex <= e2 <= ex + n + 1 /\
                 q * 2 ^ n <= shr_m r2 * 2 ^ (e2 - ex)).
  { destruct Hd1 as [H53|[H54 Hm1eq]].
    - rewrite H53 in Hm2, He2. replace (53 + e1 - 53 - e1) with 0 in * by lia.
      rewrite Z.pow_0_r, Z.div_1_r in Hm2. rewrite Hm2.
      replace (e2 - ex) with n by lia.
      pose proof (Zdigits2_bounds m1 ltac:(lia)) as Hb1. rewrite H53 in Hb1.
      split; [lia|]. split; [lia|].
      apply Z.mul_le_mono_nonneg_r; lia.
    - rewrite H54 in Hm2, He2. replace (54 + e1 - 53 - e1) with 1 in * by lia.
      rewrite Hm1eq in Hm2. change (2 ^ 53 / 2 ^ 1) with (2 ^ 52) in Hm2.
      rewrite Hm2. replace (e2 - ex) with (n + 1) by lia.
      split; [lia|]. split; [lia|].
      rewrite Z.pow_add_r by lia. change (2 ^ 1) with 2.
      assert (q * 2 ^ n <= 2 ^ 53 * 2 ^ n)
        by (apply Z.mul_le_mono_nonneg_r; lia).
      lia. }
  destruct Hval as (Hpos & Hle & Hval).
  destruct (shr_m r2) as [|m2|m2]; try lia.
  destruct (Z.leb_spec e2 (1024 - 53)); [|lia].
  repeat split; try assumption; lia.
Qed.

Lemma iter_xO_pow p k : Z.pos (Pos.iter xO p k) = Z.pos p * 2 ^ Z.pos k.
Proof.
  rewrite (Pos.iter_swap_gen _ _ Z.pos xO (Z.mul 2)) by reflexivity.
  rewrite <- Z.shiftl_mul_pow2 by lia. reflexivity.
Qed.

Lemma pow_div_floor x n : 0 <= x -> 0 <= n -> x - 2 ^ n < x / 2 ^ n * 2 ^ n.
Proof.
  intros Hx Hn. assert (0 < 2 ^ n) by pow_pos.
  pose proof (Z.div_mod x (2 ^ n) ltac:(lia)).
  pose proof (Z.mod_pos_bound x (2 ^ n) ltac:(lia)). lia.
Qed.

(** Converting a positive int: the result is finite unless the int has more
    than 1023 bits, and it loses less than one part in [2^52]. *)
Lemma of_int_bounds p :
  match of_int (Z.pos p) with
  | Some (S754_finite false M ez) =>
      -52 <= ez <= Zdigits2 (Z.pos p) - 52 /\
      Z.pos M < 2 ^ 53 /\
      Z.pos p * (2 ^ 52 - 1) <= Z.pos M * 2 ^ (ez + 52)
  | Some _ => False
  | None => 1023 < Zdigits2 (Z.pos p)
  end.
Proof.
  unfold of_int, prec, emax, binary_normalize,
    binary_round.
  set (d := Z.pos (digits2_pos p)).
  assert (Hd : d = Zdigits2 (Z.pos p)) by reflexivity.
  pose proof (Zdigits2_bounds (Z.pos p) ltac:(lia)) as Hb. rewrite <- Hd in Hb.
  assert (Hdpos : 0 < d) by (unfold d; lia).
  rewrite Z.add_0_r. rewrite fexp_normal by lia.
  assert (Hal : exists mz ez0, shl_align p 0 (d - 53) = (mz, ez0) /\
                  -52 <= ez0 <= 0 /\ Z.pos mz = Z.pos p * 2 ^ (- ez0) /\
                  53 <= Zdigits2 (Z.pos mz) /\
                  Zdigits2 (Z.pos mz) = d - ez0).
  { unfold shl_align. destruct (d - 53 - 0) as [|k|k] eqn:Ek.
    - exists p, 0. rewrite <- Hd. split; [reflexivity|]. simpl. lia.
    - exists p, 0. rewrite <- Hd. split; [reflexivity|]. simpl. lia.
    - exists (Pos.iter xO p k), (d - 53). split; [reflexivity|].
      assert (Hk : Z.pos k = 53 - d) by lia.
      assert (Hdig : Zdigits2 (Z.pos p * 2 ^ (53 - d)) = 53).
      { apply Zdigits2_unique; [lia|].
        replace (2 ^ (53 - 1)) with (2 ^ (d - 1) * 2 ^ (53 - d))
          by (rewrite <- Z.pow_add_r by lia; f_equal; lia).
        replace (2 ^ 53) with (2 ^ d * 2 ^ (53 - d))
          by (rewrite <- Z.pow_add_r by lia; f_equal; lia).
        assert (0 < 2 ^ (53 - d)) by pow_pos.
        split; [apply Z.mul_le_mono_nonneg_r | apply Z.mul_lt_mono_pos_r];
          lia. }
      rewrite iter_xO_pow, Hk, Hdig.
      replace (- (d - 53)) with (53 - d) by lia.
      repeat split; lia. }
  destruct Hal as (mz & ez0 & -> & Hez0 & Hmz & Hdig & Hdigeq).
  pose proof (binary_round_aux_bounds (Z.pos mz) ez0 ltac:(lia) Hdig ltac:(lia))
    as Hbra.
  destruct (binary_round_aux 53 1024 false (Z.pos mz) ez0 loc_Exact)
    as [s|s| |s M ez]; try contradiction.
  { destruct s; [contradiction|]. lia. }
  destruct s; [contradiction|]. destruct Hbra as (Hle & HM & Hval).
  split; [lia|]. split; [exact HM|].
  set (n := Zdigits2 (Z.pos mz) - 53) in *.
  assert (Hn : 0 <= n) by lia.
  pose proof (pow_div_floor (Z.pos mz) n ltac:(lia) Hn) as Hfl.
  pose proof (Zdigits2_bounds (Z.pos mz) ltac:(lia)) as Hbz.
  assert (Hu : 2 ^ n * 2 ^ 52 <= Z.pos mz).
  { rewrite <- Z.pow_add_r by lia.
    replace (n + 52) with (Zdigits2 (Z.pos mz) - 1) by lia. lia. }
  (* scale everything by 2^(ez0 + 52) *)
  assert (Ha : 0 < 2 ^ (ez0 + 52)) by pow_pos.
  replace (2 ^ (ez + 52)) with (2 ^ (ez - ez0) * 2 ^ (ez0 + 52))
    by (rewrite <- Z.pow_add_r by lia; f_equal; lia).
  assert (Hp : Z.pos p * 2 ^ 52 = Z.pos mz * 2 ^ (ez0 + 52)).
  { rewrite Hmz, <- Z.mul_assoc, <- Z.pow_add_r by lia. do 2 f_equal. lia. }
  assert (Hstep : Z.pos mz * (2 ^ 52 - 1) <= Z.pos M * 2 ^ (ez - ez0) * 2 ^ 52).
  { assert (0 < 2 ^ n) by pow_pos. nia. }
  rewrite Z.mul_assoc.
  apply (Z.mul_le_mono_pos_r _ _ (2 ^ 52)); [lia|].
  replace (Z.pos p * (2 ^ 52 - 1) * 2 ^ 52)
    with (Z.pos p * 2 ^ 52 * (2 ^ 52 - 1)) by ring.
  rewrite Hp.
  replace (Z.pos mz * 2 ^ (ez0 + 52) * (2 ^ 52 - 1))
    with (Z.pos mz * (2 ^ 52 - 1) * 2 ^ (ez0 + 52)) by ring.
  replace (Z.pos M * 2 ^ (ez - ez0) * 2 ^ (ez0 + 52) * 2 ^ 52)
    with (Z.pos M * 2 ^ (ez - ez0) * 2 ^ 52 * 2 ^ (ez0 + 52)) by ring.
  apply Z.mul_le_mono_nonneg_r; lia.
Qed.

Lemma Zdigits2_ge x k : 0 <= k -> 2 ^ k <= x -> k + 1 <= Zdigits2 x.
Proof.
  intros Hk Hx. assert (0 < x) by (pose proof (Z.pow_pos_nonneg 2 k); lia).
  pose proof (Zdigits2_bounds x ltac:(lia)) as [_ Hb].
  destruct (Z.lt_ge_cases k (Zdigits2 x)); [lia|].
  assert (2 ^ Zdigits2 x <= 2 ^ k) by (apply Z.pow_le_mono_r; lia). lia.
Qed.

Lemma Zdigits2_le x k : 0 < x -> x < 2 ^ k -> Zdigits2 x <= k.
Proof.
  intros Hx Hk. pose proof (Zdigits2_bounds x Hx) as [Hb _].
  destruct (Z.le_gt_cases (Zdigits2 x) k); [assumption|].
  assert (0 <= k).
  { destruct (Z.lt_ge_cases k 0); [|assumption].
    rewrite Z.pow_neg_r in Hk by assumption. lia. }
  assert (2 ^ k <= 2 ^ (Zdigits2 x - 1)) by (apply Z.pow_le_mono_r; lia). lia.
Qed.

(** [int(m * 1.2)] is at least [m], and is defined below [2^1021]. *)
Lemma scale_1_2_spec m :
  0 <= m ->
  match scale_1_2 m with
  | Some w => m <= w
  | None => 2 ^ 1021 <= m
  end.
Proof.
  intros Hm. destruct m as [|p|p]; [|clear Hm|lia].
  { vm_compute. discriminate. }
  unfold scale_1_2. pose proof (of_int_bounds p) as Hof.
  assert (Hdp : Z.pos p < 2 ^ 1021 -> Zdigits2 (Z.pos p) <= 1021)
    by (apply Zdigits2_le; lia).
  destruct (of_int (Z.pos p)) as [[s|s| |s M ez]|]; try contradiction;
    [|lia].
  destruct s; [contradiction|]. destruct Hof as (Hez & HM & HK2).
  unfold c_1_2, prec, emax. cbn [SFmul xorb].
  set (C := 5404319552844595%positive).
  assert (HC : Z.pos C = 5404319552844595) by reflexivity.
  assert (Hmx : 2 ^ 52 <= Z.pos (M * C) < 2 ^ 106).
  { rewrite Pos2Z.inj_mul, HC. split; [lia|].
    change (2 ^ 106) with (2 ^ 53 * 2 ^ 53). nia. }
  pose proof (Zdigits2_ge _ 52 ltac:(lia) (proj1 Hmx)) as Hdig.
  pose proof (Zdigits2_le (Z.pos (M * C)) 106 ltac:(lia) (proj2 Hmx)) as Hdig'.
  pose proof (binary_round_aux_bounds (Z.pos (M * C)) (ez + -52)
                ltac:(lia) ltac:(lia) ltac:(lia)) as Hbra.
  destruct (binary_round_aux 53 1024 false (Z.pos (M * C)) (ez + -52) loc_Exact)
    as [s|s| |s m' e']; try contradiction.
  { destruct s; [contradiction|]. cbn [trunc].
    destruct (Z.lt_ge_cases (Z.pos p) (2 ^ 1021)); [|assumption].
    specialize (Hdp ltac:(assumption)). lia. }
  destruct s; [contradiction|]. destruct Hbra as (Hle & Hm' & Hval).
  set (n := Zdigits2 (Z.pos (M * C)) - 53) in *.
  assert (Hn : 0 <= n) by lia.
  pose proof (pow_div_floor (Z.pos (M * C)) n ltac:(lia) Hn) as Hfl.
  pose proof (Zdigits2_bounds (Z.pos (M * C)) ltac:(lia)) as [Hbz _].
  assert (Hu : 2 ^ n * 2 ^ 52 <= Z.pos (M * C)).
  { rewrite <- Z.pow_add_r by lia.
    replace (n + 52) with (Zdigits2 (Z.pos (M * C)) - 1) by lia. lia. }
  clear Hmx. rewrite Pos2Z.inj_mul in *.
  assert (Hu0 : 0 < 2 ^ n) by pow_pos.
  set (A := 2 ^ (e' - (ez + -52))) in *.
  assert (HA : 0 < A) by pow_pos.
  set (a := 2 ^ (ez + 52)) in *.
  assert (Ha : 0 < a) by pow_pos.
  (* the product is at least [p]; both sides are multiplied by [2^104] *)
  assert (HT : Z.pos p * 2 ^ 104 <= Z.pos m' * 2 ^ (e' + 104)).
  { replace (2 ^ (e' + 104)) with (A * a)
      by (unfold A, a; rewrite <- Z.pow_add_r by lia; f_equal; lia).
    assert (H1 : (2 ^ 52 - 1) * (Z.pos M * Z.pos C) <= 2 ^ 52 * (Z.pos m' * A))
      by lia.
    assert (H2 : (2 ^ 52 - 1) * Z.pos C * (Z.pos M * a)
                 <= 2 ^ 52 * (Z.pos m' * (A * a))).
    { replace ((2 ^ 52 - 1) * Z.pos C * (Z.pos M * a))
        with ((2 ^ 52 - 1) * (Z.pos M * Z.pos C) * a) by ring.
      replace (2 ^ 52 * (Z.pos m' * (A * a)))
        with (2 ^ 52 * (Z.pos m' * A) * a) by ring.
      apply Z.mul_le_mono_nonneg_r; lia. }
    assert (H3 : (2 ^ 52 - 1) * Z.pos C * (Z.pos p * (2 ^ 52 - 1))
                 <= (2 ^ 52 - 1) * Z.pos C * (Z.pos M * a)).
    { apply Z.mul_le_mono_nonneg_l; [rewrite HC; lia | exact HK2]. }
    assert (H4 : 2 ^ 52 * (Z.pos p * 2 ^ 104)
                 <= (2 ^ 52 - 1) * Z.pos C * (Z.pos p * (2 ^ 52 - 1))).
    { rewrite HC.
      replace (2 ^ 52 * (Z.pos p * 2 ^ 104)) with (Z.pos p * 2 ^ 156) by
        (change (2 ^ 156) with (2 ^ 52 * 2 ^ 104); ring).
      replace ((2 ^ 52 - 1) * 5404319552844595 * (Z.pos p * (2 ^ 52 - 1)))
        with (Z.pos p * ((2 ^ 52 - 1) * 5404319552844595 * (2 ^ 52 - 1)))
        by ring.
      apply Z.mul_le_mono_nonneg_l; [lia|]. vm_compute. discriminate. }
    apply (Z.mul_le_mono_pos_l _ _ (2 ^ 52)); lia. }
  unfold trunc.
  destruct (Z.leb_spec 0 e') as [He|He].
  - replace (2 ^ (e' + 104)) with (2 ^ e' * 2 ^ 104) in HT
      by (rewrite <- Z.pow_add_r by lia; reflexivity).
    rewrite Z.mul_assoc in HT.
    apply Z.mul_le_mono_pos_r in HT; [exact HT | lia].
  - apply Z.div_le_lower_bound; [pow_pos|].
    assert (He104 : 0 < 2 ^ (e' + 104)) by pow_pos.
    replace (2 ^ 104) with (2 ^ (- e') * 2 ^ (e' + 104)) in HT
      by (rewrite <- Z.pow_add_r by lia; f_equal; lia).
    rewrite Z.mul_assoc in HT.
    apply Z.mul_le_mono_pos_r in HT; lia.
Qed.

Lemma loc_of_shr_record_of_loc m l :
  loc_of_shr_record (shr_record_of_loc m l) = l.
Proof. destruct l as [|[]]; reflexivity. Qed.

(** Rounding a 53-bit mantissa with a location: no shift, round to nearest
    even, renormalise. *)
Lemma binary_round_aux_53 q e l :
  2 ^ 52 <= q < 2 ^ 53 -> -1074 <= e <= 970 ->
  binary_round_aux 53 1024 false q e l = fl (round_nearest_even q l) e.
Proof.
  intros Hq He.
  assert (Hdq : Zdigits2 q = 53) by (apply Zdigits2_unique; lia).
  unfold binary_round_aux, shr_fexp. rewrite Hdq.
  rewrite fexp_normal by lia. replace (53 + e - 53 - e) with 0 by lia.
  cbn [shr]. rewrite loc_of_shr_record_of_loc, shr_record_of_loc_m.
  pose proof (round_nearest_even_bounds q l) as Hr.
  set (Q := round_nearest_even q l) in *.
  unfold fl. destruct (Z.ltb_spec Q (2 ^ 53)) as [Hlt|Hge].
  - assert (HdQ : Zdigits2 Q = 53) by (apply Zdigits2_unique; lia).
    rewrite HdQ, fexp_normal by lia. replace (53 + e - 53 - e) with 0 by lia.
    cbn [shr shr_record_of_loc shr_m].
    destruct Q as [|Qp|Qp]; try lia.
    replace (e <=? 1024 - 53) with true by (symmetry; apply Z.leb_le; lia).
    reflexivity.
  - assert (HQ : Q = 2 ^ 53) by lia. rewrite HQ.
    change (Zdigits2 (2 ^ 53)) with 54.
    rewrite fexp_normal by lia. replace (54 + e - 53 - e) with 1 by lia.
    cbn.
    replace (e + 1 <=? 971) with true by (symmetry; apply Z.leb_le; lia).
    reflexivity.
Qed.

(** Ints of at most 53 bits convert exactly. *)
Lemma of_int_exact p :
  Zdigits2 (Z.pos p) <= 53 ->
  of_int (Z.pos p)
  = Some (S754_finite false
            (Z.to_pos (Z.pos p * 2 ^ (53 - Zdigits2 (Z.pos p))))
            (Zdigits2 (Z.pos p) - 53)).
Proof.
  intros Hd.
  unfold of_int, prec, emax, binary_normalize,
    binary_round.
  change (Z.pos (digits2_pos p)) with (Zdigits2 (Z.pos p)).
  set (d := Zdigits2 (Z.pos p)) in *.
  pose proof (Zdigits2_bounds (Z.pos p) ltac:(lia)) as Hb. fold d in Hb.
  assert (Hdpos : 0 < d) by (unfold d; simpl; lia).
  rewrite Z.add_0_r, fexp_normal by lia.
  assert (Hq : 2 ^ 52 <= Z.pos p * 2 ^ (53 - d) < 2 ^ 53).
  { replace (2 ^ 52) with (2 ^ (d - 1) * 2 ^ (53 - d))
      by (rewrite <- Z.pow_add_r by lia; f_equal; lia).
    replace (2 ^ 53) with (2 ^ d * 2 ^ (53 - d))
      by (rewrite <- Z.pow_add_r by lia; f_equal; lia).
    assert (0 < 2 ^ (53 - d)) by pow_pos.
    split; [apply Z.mul_le_mono_nonneg_r | apply Z.mul_lt_mono_pos_r]; lia. }
  assert (Hal : shl_align p 0 (d - 53)
                = (Z.to_pos (Z.pos p * 2 ^ (53 - d)), d - 53)).
  { unfold shl_align. destruct (d - 53 - 0) as [|k|k] eqn:Ek; [|lia|].
    - replace (53 - d) with 0 by lia. replace (d - 53) with 0 by lia.
      rewrite Z.pow_0_r, Z.mul_1_r. reflexivity.
    - f_equal. apply Pos2Z.inj. rewrite iter_xO_pow, Z2Pos.id by lia.
      do 2 f_equal. lia. }
  rewrite Hal. rewrite Z2Pos.id by lia.
  rewrite binary_round_aux_53 by lia.
  unfold fl. cbn [round_nearest_even].
  replace (Z.pos p * 2 ^ (53 - d) <? 2 ^ 53) with true
    by (symmetry; apply Z.ltb_lt; lia).
  reflexivity.
Qed.

Lemma sqrt_bounds m' :
  2 ^ 104 <= m' < 2 ^ 106 -> 2 ^ 52 <= Z.sqrt m' < 2 ^ 53.
Proof.
  intros [Hlo Hhi]. split.
  - change (2 ^ 52) with (Z.sqrt (2 ^ 52 * 2 ^ 52)).
    apply Z.sqrt_le_mono. exact Hlo.
  - apply Z.sqrt_lt_square; [lia | lia | exact Hhi].
Qed.

(** The square root of a float with a 53-bit mantissa [M] and exponent [e]
    in [[-52, 0]]: the result has mantissa [Q] (before renormalisation) and
    exponent [e'] with [- Q < M * 2^(e - 2e') - Q^2 <= Q], that is, [Q] is
    the operand's square root rounded to nearest. *)
Lemma SFsqrt_exact M e :
  2 ^ 52 <= Z.pos M < 2 ^ 53 -> -52 <= e <= 0 ->
  exists Q e',
    SFsqrt 53 1024 (S754_finite false M e) = fl Q e' /\
    2 ^ 52 <= Q <= 2 ^ 53 /\
    e' = (e + 54) / 2 - 53 /\
    - Q < Z.pos M * 2 ^ (e - 2 * e') - Q * Q <= Q.
Proof.
  intros HM He.
  assert (HdM : Zdigits2 (Z.pos M) = 53) by (apply Zdigits2_unique; lia).
  unfold SFsqrt, SFsqrt_core_binary. rewrite HdM.
  rewrite !Z.div2_div.
  assert (Hn1 : -1074 <= (53 + e + 1) / 2 - 53)
    by dlia.
  rewrite fexp_normal by exact Hn1.
  set (e' := (e + 54) / 2 - 53).
  replace ((53 + e + 1) / 2 - 53) with e' by (unfold e'; do 2 f_equal; lia).
  assert (He' : Z.min e' (e / 2) = e')
    by (unfold e'; dlia).
  rewrite He'.
  set (s := e - 2 * e').
  assert (Hs : s = 52 \/ s = 53)
    by (unfold s, e'; dlia).
  assert (Hshift : match s with
                   | Z.pos _ => Z.shiftl (Z.pos M) s
                   | 0 => Z.pos M
                   | Z.neg _ => 0
                   end = Z.pos M * 2 ^ s).
  { destruct Hs as [-> | ->]; rewrite Z.shiftl_mul_pow2 by lia; reflexivity. }
  rewrite Hshift.
  set (m' := Z.pos M * 2 ^ s).
  assert (Hm' : 2 ^ 104 <= m' < 2 ^ 106).
  { unfold m'. destruct Hs as [-> | ->]; lia. }
  pose proof (Z.sqrtrem_spec m' ltac:(lia)) as Hspec.
  pose proof (Z.sqrtrem_sqrt m') as Hfst.
  destruct (Z.sqrtrem m') as [q r]. cbn [fst] in Hfst.
  pose proof (sqrt_bounds m' Hm') as Hq. rewrite <- Hfst in Hq.
  destruct Hspec as [Heq Hr].
  rewrite binary_round_aux_53 by (unfold e'; dlia).
  eexists _, e'. split; [reflexivity|].
  split; [|split; [reflexivity|]].
  - destruct (r =? 0); [cbn [round_nearest_even]; lia|].
    destruct (r <=? q); cbn [round_nearest_even]; lia.
  - change (Z.pos M * 2 ^ (e - 2 * e')) with m'.
    destruct (Z.eqb_spec r 0) as [Hr0|Hr0]; [cbn [round_nearest_even]; lia|].
    destruct (Z.leb_spec r q); cbn [round_nearest_even]; lia.
Qed.

Lemma fl_canonical Q e :
  2 ^ 52 <= Q <= 2 ^ 53 -> -52 <= e ->
  exists M e1,
    fl Q e = S754_finite false M e1 /\
    2 ^ 52 <= Z.pos M < 2 ^ 53 /\ -52 <= e1 <= e + 1 /\
    scaled M e1 = Q * 2 ^ (e + 52).
Proof.
  intros HQ He. unfold fl, scaled.
  destruct (Z.ltb_spec Q (2 ^ 53)).
  - exists (Z.to_pos Q), e. rewrite Z2Pos.id by lia.
    repeat split; lia.
  - exists (Z.to_pos (2 ^ 52)), (e + 1). rewrite Z2Pos.id by lia.
    repeat split; try lia.
    replace Q with (2 ^ 53) by lia.
    replace (e + 1 + 52) with (1 + (e + 52)) by lia.
    rewrite Z.pow_add_r by lia. change (2 ^ 53) with (2 ^ 52 * 2 ^ 1). ring.
Qed.

(** The square root of a positive int below [2^52], squared, is within
    one half of the int. *)
Lemma sqrt_int_small p :
  Z.pos p < 2 ^ 52 ->
  exists M e,
    sqrt_int (Z.pos p) = Some (S754_finite false M e) /\
    2 ^ 52 <= Z.pos M < 2 ^ 53 /\ -52 <= e /\
    - 2 ^ 103 < Z.pos p * 2 ^ 104 - scaled M e * scaled M e <= 2 ^ 103.
Proof.
  intros Hp. set (d := Zdigits2 (Z.pos p)).
  assert (Hd : 0 < d <= 52).
  { split; [unfold d; simpl; lia|]. apply Zdigits2_le; lia. }
  pose proof (Zdigits2_bounds (Z.pos p) ltac:(lia)) as Hb. fold d in Hb.
  unfold sqrt_int, prec, emax.
  rewrite of_int_exact by (fold d; lia). fold d.
  assert (HM0 : 2 ^ 52 <= Z.pos p * 2 ^ (53 - d) < 2 ^ 53).
  { replace (2 ^ 52) with (2 ^ (d - 1) * 2 ^ (53 - d))
      by (rewrite <- Z.pow_add_r by lia; f_equal; lia).
    replace (2 ^ 53) with (2 ^ d * 2 ^ (53 - d))
      by (rewrite <- Z.pow_add_r by lia; f_equal; lia).
    assert (0 < 2 ^ (53 - d)) by pow_pos.
    split; [apply Z.mul_le_mono_nonneg_r | apply Z.mul_lt_mono_pos_r]; lia. }
  destruct (SFsqrt_exact (Z.to_pos (Z.pos p * 2 ^ (53 - d))) (d - 53))
    as (Q & e' & Hsqrt & HQ & He' & Hbr);
    [rewrite Z2Pos.id by lia; exact HM0 | lia |].
  rewrite Z2Pos.id in Hbr by lia.
  assert (He'r : -52 <= e' <= -27) by (rewrite He'; dlia).
  destruct (fl_canonical Q e' HQ ltac:(lia)) as (M & e1 & Hfl & HM & He1 & HW).
  exists M, e1. rewrite Hsqrt, Hfl. split; [reflexivity|].
  split; [exact HM|]. split; [lia|].
  rewrite HW.
  set (t := 2 ^ (e' + 52)).
  assert (Ht : 0 < t) by pow_pos.
  assert (Htt : t * t <= 2 ^ 50).
  { unfold t. rewrite <- Z.pow_add_r by lia. apply Z.pow_le_mono_r; lia. }
  assert (Hscale : Z.pos p * 2 ^ 104
                   = Z.pos p * 2 ^ (53 - d) * 2 ^ (d - 53 - 2 * e') * (t * t)).
  { unfold t. rewrite <- !Z.mul_assoc. f_equal.
    rewrite <- !Z.pow_add_r by lia. f_equal. lia. }
  rewrite Hscale.
  set (X := Z.pos p * 2 ^ (53 - d) * 2 ^ (d - 53 - 2 * e')) in *.
  replace (X * (t * t) - Q * t * (Q * t)) with ((X - Q * Q) * (t * t)) by ring.
  assert (Hbound : Q * (t * t) <= 2 ^ 103).
  { change (2 ^ 103) with (2 ^ 53 * 2 ^ 50).
    apply Z.mul_le_mono_nonneg; lia. }
  assert (0 < t * t) by nia.
  split.
  - assert ((- Q + 1) * (t * t) <= (X - Q * Q) * (t * t))
      by (apply Z.mul_le_mono_nonneg_r; lia).
    lia.
  - assert ((X - Q * Q) * (t * t) <= Q * (t * t))
      by (apply Z.mul_le_mono_nonneg_r; lia).
    lia.
Qed.

(** [<] on normalised positive floats is the order of their values. *)
Lemma SFltb_canonical M1 e1 M2 e2 :
  2 ^ 52 <= Z.pos M1 < 2 ^ 53 -> -52 <= e1 ->
  2 ^ 52 <= Z.pos M2 < 2 ^ 53 -> -52 <= e2 ->
  SFltb (S754_finite false M1 e1) (S754_finite false M2 e2)
  = (scaled M1 e1 <? scaled M2 e2).
Proof.
  intros HM1 He1 HM2 He2. unfold SFltb, SFcompare, scaled.
  assert (Hlt : forall Ma ea Mb eb,
             2 ^ 52 <= Ma < 2 ^ 53 -> 2 ^ 52 <= Mb < 2 ^ 53 ->
             -52 <= ea -> ea < eb ->
             Ma * 2 ^ (ea + 52) < Mb * 2 ^ (eb + 52)).
  { intros Ma ea Mb eb Ha Hb Hea Hab.
    replace (eb + 52) with ((eb - ea - 1) + (1 + (ea + 52))) by lia.
    rewrite (Z.pow_add_r 2 (eb - ea - 1)), (Z.pow_add_r 2 1) by lia.
    assert (0 < 2 ^ (ea + 52)) by pow_pos.
    assert (1 <= 2 ^ (eb - ea - 1))
      by (pose proof (Z.pow_pos_nonneg 2 (eb - ea - 1)); lia).
    change (2 ^ 1) with 2.
    set (t := 2 ^ (ea + 52)) in *. set (u := 2 ^ (eb - ea - 1)) in *.
    assert (Ma * t < 2 ^ 53 * t) by (apply Z.mul_lt_mono_pos_r; lia).
    assert (2 ^ 52 * (2 * t) <= Mb * (2 * t))
      by (apply Z.mul_le_mono_nonneg_r; lia).
    assert (Mb * (2 * t) * 1 <= Mb * (2 * t) * u)
      by (apply Z.mul_le_mono_nonneg_l; lia).
    replace (Mb * (u * (2 * t))) with (Mb * (2 * t) * u) by ring.
    lia. }
  assert (Ht1 : 0 < 2 ^ (e1 + 52)) by pow_pos.
  destruct (Z.compare_spec e1 e2) as [Heq|Hl|Hg].
  - subst e2. change (Pos.compare_cont Eq M1 M2) with (M1 ?= M2)%positive.
    destruct (Pos.compare_spec M1 M2) as [Hm|Hm|Hm].
    + subst M2. symmetry. apply Z.ltb_irrefl.
    + symmetry. apply Z.ltb_lt. apply Z.mul_lt_mono_pos_r; lia.
    + symmetry. apply Z.ltb_ge. apply Z.mul_le_mono_nonneg_r; lia.
  - symmetry. apply Z.ltb_lt. apply Hlt; lia.
  - symmetry. apply Z.ltb_ge. apply Z.lt_le_incl. apply Hlt; lia.
Qed.

(** Two values whose squares are each within one half of an integer are in
    the order of those integers. *)
Lemma scaled_lt_of_lt M1 e1 M2 e2 n m :
  0 <= scaled M1 e1 -> 0 <= scaled M2 e2 ->
  - 2 ^ 103 < n * 2 ^ 104 - scaled M1 e1 * scaled M1 e1 <= 2 ^ 103 ->
  - 2 ^ 103 < m * 2 ^ 104 - scaled M2 e2 * scaled M2 e2 <= 2 ^ 103 ->
  n < m -> scaled M1 e1 < scaled M2 e2.
Proof.
  intros H1 H2 Hn Hm Hlt.
  destruct (Z.lt_ge_cases (scaled M1 e1) (scaled M2 e2)) as [|Hge];
    [assumption|].
  exfalso.
  assert (scaled M2 e2 * scaled M2 e2 <= scaled M1 e1 * scaled M1 e1)
    by (apply Z.mul_le_mono_nonneg; lia).
  lia.
Qed.

Lemma scaled_nonneg M e : 0 <= scaled M e.
Proof.
  unfold scaled. apply Z.mul_nonneg_nonneg; [lia|]. apply Z.pow_nonneg. lia.
Qed.

(** Below [2^52] the double-precision square root keeps integers apart and
    in order. *)
Lemma sqrt_int_order n m :
  0 <= n < 2 ^ 52 -> 0 <= m < 2 ^ 52 ->
  exists f g, sqrt_int n = Some f /\ sqrt_int m = Some g /\
              SFltb f g = (n <? m).
Proof.
  intros Hn Hm.
  destruct n as [|p|p]; [|destruct Hn as [_ Hn]|lia];
    (destruct m as [|q|q]; [|destruct Hm as [_ Hm]|lia]).
  - exists (S754_zero false), (S754_zero false). repeat split.
  - destruct (sqrt_int_small q Hm) as (M & e & E & _).
    exists (S754_zero false), (S754_finite false M e).
    split; [reflexivity|]. split; [exact E | reflexivity].
  - destruct (sqrt_int_small p Hn) as (M & e & E & _).
    exists (S754_finite false M e), (S754_zero false).
    split; [exact E|]. split; reflexivity.
  - destruct (sqrt_int_small p Hn) as (M1 & e1 & E1 & HM1 & He1 & Hb1).
    destruct (sqrt_int_small q Hm) as (M2 & e2 & E2 & HM2 & He2 & Hb2).
    exists (S754_finite false M1 e1), (S754_finite false M2 e2).
    split; [exact E1|]. split; [exact E2|].
    rewrite SFltb_canonical by assumption.
    pose proof (scaled_nonneg M1 e1). pose proof (scaled_nonneg M2 e2).
    destruct (Z.ltb_spec (Z.pos p) (Z.pos q)) as [Hlt|Hge].
    + apply Z.ltb_lt. eapply scaled_lt_of_lt; eassumption.
    + apply Z.ltb_ge. destruct (Z.eq_dec (Z.pos p) (Z.pos q)) as [Heq|Hne].
      * injection Heq as ->. rewrite E1 in E2. injection E2 as -> ->. lia.
      * apply Z.lt_le_incl.
        eapply (scaled_lt_of_lt M2 e2 M1 e1 (Z.pos q) (Z.pos p));
          try eassumption.
        lia.
Qed.

Lemma times_1_2_binary64 (n : Z) :
  @times_1_2 binary64 n = lift_overflow (scale_1_2 n).
Proof.
  unfold times_1_2, int_mul_1_2, py_int, scale_1_2. cbn.
  destruct (of_int n); reflexivity.
Qed.

Lemma math_sqrt_binary64 (n : Z) :
  0 <= n -> @math_sqrt binary64 n = lift_overflow (sqrt_int n).
Proof.
  intros Hn. unfold math_sqrt, sqrt_int. cbn.
  destruct (of_int n); [|reflexivity]. cbn.
  replace (n <? 0) with false by (symmetry; apply Z.ltb_ge; exact Hn).
  reflexivity.
Qed.

End Binary64Facts.

(** ** The enumerator on doubles *)

(** C2: on a feasible equation ([gcd(|a|,|b|) > 0] dividing [c]), for every
    [t_range] and [max_solutions] (in particular [t_range >= 0] and
    [max_solutions >= 1]), every triple [(x, y, t)] of the returned list
    satisfies [a*x + b*y = c]. *)
Theorem generate_solutions_on_line {F : FloatOps}
        (a b c t_range max_solutions : Z) (l : list (Z * Z * Z)) :
  0 < Z.gcd (Z.abs a) (Z.abs b) ->
  c mod Z.gcd (Z.abs a) (Z.abs b) = 0 ->
  generate_solutions a b c t_range max_solutions = Ok l ->
  forall x y t, In (x, y, t) l -> a * x + b * y = c.
Proof.
  intros Hg Hc H x y t Hin.
  assert (Hf : feasible a b c) by (split; assumption).
  apply (candidates_on_line a b c t_range Hf x y t).
  eapply generate_solutions_subset; eassumption.
Qed.

Lemma generate_solutions_on_line_witness :
  0 < Z.gcd (Z.abs 2) (Z.abs (-3)) /\
  6 mod Z.gcd (Z.abs 2) (Z.abs (-3)) = 0 /\
  @generate_solutions binary64 2 (-3) 6 50 3
    = Ok [(0, -2, -2); (3, 0, -3); (-3, -4, -1)] /\
  2 * (-3) + -3 * (-4) = 6.
Proof.
  split; [reflexivity|]. split; [reflexivity|].
  split; [vm_compute; reflexivity|].
  apply (@generate_solutions_on_line binary64 2 (-3) 6 50 3
           [(0, -2, -2); (3, 0, -3); (-3, -4, -1)]) with (t := -1).
  - reflexivity.
  - reflexivity.
  - vm_compute; reflexivity.
  - simpl; auto.
Defined.

Lemma last_In {A : Type} (l : list A) (d : A) : l <> [] -> In (last l d) l.
Proof.
  induction l as [|x [|y l] IH]; intros H;
    [contradiction | left; reflexivity |].
  right. apply IH. discriminate.
Qed.

(** Below [2^52] the keys that [math.sqrt] computes compare as the squared
    distances do. *)
Lemma binary64_sqrt_exact (l : list (Z * Z * Z)) :
  (forall s, In s l -> sq_dist s < 2 ^ 52) -> @sqrt_exact_on binary64 l.
Proof.
  intros Hsmall s1 s2 H1 H2.
  destruct (Binary64Facts.sqrt_int_order (sq_dist s1) (sq_dist s2))
    as (f & g & Ef & Eg & Hlt).
  - split; [apply sq_dist_nonneg | auto].
  - split; [apply sq_dist_nonneg | auto].
  - exists f, g.
    rewrite !Binary64Facts.math_sqrt_binary64 by apply sq_dist_nonneg.
    rewrite Ef, Eg. auto.
Qed.

Lemma small_by_computation (l : list (Z * Z * Z)) :
  forallb (fun s => sq_dist s <? 2 ^ 52) l = true ->
  forall s, In s l -> sq_dist s < 2 ^ 52.
Proof.
  intros H s Hs. rewrite forallb_forall in H. apply Z.ltb_lt. auto.
Qed.

(** The order of the result, for any arithmetic in which [math.sqrt] keeps
    the candidates' squared distances apart. *)
Lemma generate_solutions_sorted_exact {F : FloatOps}
      (a b c t_range max_solutions : Z) :
  feasible a b c ->
  sqrt_exact_on (candidates a b c t_range) ->
  exists l,
    generate_solutions a b c t_range max_solutions = Ok l /\
    StronglySorted closer_or_earlier l /\
    (forall r s, In r l -> In s (candidates a b c t_range) -> ~ In s l ->
                 sq_dist r <= sq_dist s) /\
    (forall s, In s (candidates a b c t_range) -> ~ In s l ->
               sq_dist (last l s) <= sq_dist s).
Proof.
  intros Hf Hex.
  destruct (generate_solutions_prefix a b c t_range max_solutions Hf Hex)
    as (L & n & E & Hperm & Hsorted & _).
  exists (firstn n L). split; [exact E|].
  split; [apply StronglySorted_firstn; exact Hsorted|].
  assert (Hfar : forall r s, In r (firstn n L) ->
                 In s (candidates a b c t_range) -> ~ In s (firstn n L) ->
                 sq_dist r <= sq_dist s).
  { intros r s Hr Hs Hnot. apply closer_or_earlier_le.
    apply (Permutation_in _ (Permutation_sym Hperm)) in Hs.
    rewrite <- (firstn_skipn n L) in Hs, Hsorted.
    apply in_app_or in Hs as [Hs|Hs]; [contradiction|].
    eapply StronglySorted_split; eassumption. }
  split; [exact Hfar|].
  intros s Hs Hnot. destruct (firstn n L) as [|r0 l0] eqn:El.
  - simpl. lia.
  - apply Hfar; [|assumption|assumption]. apply last_In. discriminate.
Qed.

(** The count of the result, whenever the call returns. *)
Lemma generate_solutions_length {F : FloatOps}
      (a b c t_range max_solutions : Z) (l : list (Z * Z * Z)) :
  feasible a b c -> 0 <= t_range -> 1 <= max_solutions ->
  generate_solutions a b c t_range max_solutions = Ok l ->
  Z.of_nat (length l) = Z.min (2 * t_range + 1) max_solutions.
Proof.
  intros Hf HT Hk H. rewrite generate_solutions_feasible in H by assumption.
  apply bind_Ok_inv in H as (sols & Hdec & H). injection H as <-.
  rewrite length_map, slice_to_length by lia. unfold sort_by_key.
  rewrite (Permutation_length (sort_by_perm _ sols)).
  rewrite <- (length_map fst), (decorate_Ok _ _ Hdec).
  rewrite candidates_length by assumption. lia.
Qed.

(** With [max_solutions = 1] the solution returned is a closest candidate,
    for any arithmetic in which [math.sqrt] keeps the candidates' squared
    distances apart. *)
Lemma generate_solutions_closest_exact {F : FloatOps} (a b c t_range : Z) :
  feasible a b c -> 0 <= t_range ->
  sqrt_exact_on (candidates a b c t_range) ->
  exists s,
    generate_solutions a b c t_range 1 = Ok [s] /\
    In s (candidates a b c t_range) /\
    forall s', In s' (candidates a b c t_range) -> sq_dist s <= sq_dist s'.
Proof.
  intros Hf HT Hex.
  destruct (generate_solutions_prefix a b c t_range 1 Hf Hex)
    as (L & n & E & Hperm & Hsorted & Hn).
  specialize (Hn ltac:(lia)). change (Z.to_nat 1) with 1%nat in Hn. subst n.
  pose proof (candidates_length a b c t_range Hf HT) as Hlen.
  rewrite <- (Permutation_length Hperm) in Hlen.
  destruct L as [|s L]; [cbn [length] in Hlen; lia|].
  exists s. split; [exact E|].
  split; [apply (Permutation_in _ Hperm); left; reflexivity|].
  intros s' Hs'. apply (Permutation_in _ (Permutation_sym Hperm)) in Hs'.
  destruct Hs' as [<-|Hs']; [lia|].
  apply closer_or_earlier_le. apply StronglySorted_inv in Hsorted as [_ Hall].
  rewrite Forall_forall in Hall. auto.
Qed.

(** C3, as stated, fails in two ways.  A candidate can be strictly closer
    than the last returned solution, because the candidates returned before
    it are: for [2x + 3y = 6], [t_range = 1], [max_solutions = 3] the last
    returned solution is [(-9, 8)] and the first, [(-3, 4)], is closer.  And
    the list need not be in order of distance: for [0x + 1y = 2^26],
    [t_range = 1], the squared distances [2^52 + 1] and [2^52] of [t = -1]
    and [t = 0] have the same double-precision square root, and [(-1, 2^26)]
    is returned before the closer [(0, 2^26)]. *)
Lemma generate_solutions_order_fails :
  (feasible 2 3 6 /\
   @generate_solutions binary64 2 3 6 1 3
     = Ok [(-3, 4, 1); (-6, 6, 0); (-9, 8, -1)] /\
   In (-3, 4, 1) (candidates 2 3 6 1) /\
   sq_dist (-3, 4, 1) < sq_dist (-9, 8, -1)) /\
  (feasible 0 1 67108864 /\
   @generate_solutions binary64 0 1 67108864 1 3
     = Ok [(-1, 67108864, -1); (0, 67108864, 0); (1, 67108864, 1)] /\
   sq_dist (0, 67108864, 0) < sq_dist (-1, 67108864, -1)).
Proof.
  split.
  - split; [split; reflexivity|]. split; [vm_compute; reflexivity|].
    split; [vm_compute; auto | reflexivity].
  - split; [split; reflexivity|]. split; [vm_compute; reflexivity|].
    reflexivity.
Qed.

(** C3, amended: on a feasible equation whose enumerated candidates all have
    [x^2 + y^2 < 2^52], the returned list is ordered by non-decreasing
    Euclidean distance, solutions at the same distance come in the order of
    enumeration (increasing [t]), and no candidate with [t] in
    [[-t_range, t_range]] that is not returned is strictly closer than a
    returned solution, the last one in particular.  ([t_range >= 0] is not
    needed.) *)
Theorem generate_solutions_sorted (a b c t_range max_solutions : Z) :
  0 < Z.gcd (Z.abs a) (Z.abs b) ->
  c mod Z.gcd (Z.abs a) (Z.abs b) = 0 ->
  (forall s, In s (candidates a b c t_range) -> sq_dist s < 2 ^ 52) ->
  exists l,
    @generate_solutions binary64 a b c t_range max_solutions = Ok l /\
    StronglySorted closer_or_earlier l /\
    (forall r s, In r l -> In s (candidates a b c t_range) -> ~ In s l ->
                 sq_dist r <= sq_dist s) /\
    (forall s, In s (candidates a b c t_range) -> ~ In s l ->
               sq_dist (last l s) <= sq_dist s).
Proof.
  intros Hg Hc Hsmall. apply generate_solutions_sorted_exact.
  - split; assumption.
  - apply binary64_sqrt_exact. exact Hsmall.
Qed.

Lemma generate_solutions_sorted_witness :
  0 < Z.gcd (Z.abs 2) (Z.abs 3) /\
  6 mod Z.gcd (Z.abs 2) (Z.abs 3) = 0 /\
  (forall s, In s (candidates 2 3 6 50) -> sq_dist s < 2 ^ 52) /\
  exists l,
    @generate_solutions binary64 2 3 6 50 5 = Ok l /\
    StronglySorted closer_or_earlier l /\
    (forall r s, In r l -> In s (candidates 2 3 6 50) -> ~ In s l ->
                 sq_dist r <= sq_dist s) /\
    (forall s, In s (candidates 2 3 6 50) -> ~ In s l ->
               sq_dist (last l s) <= sq_dist s).
Proof.
  split; [reflexivity|]. split; [reflexivity|].
  split; [apply small_by_computation; vm_compute; reflexivity|].
  apply (generate_solutions_sorted 2 3 6 50 5).
  - reflexivity.
  - reflexivity.
  - apply small_by_computation; vm_compute; reflexivity.
Defined.

(** C8, as stated, fails: for [0x + 1y = 2^26], [t_range = 1],
    [max_solutions = 1], the candidates [t = -1] and [t = 0] have the squared
    distances [2^52 + 1] and [2^52], whose double-precision square roots are
    both [2^26]; the stable sort keeps [t = -1] first, and the solution
    returned is [(-1, 2^26)] although [(0, 2^26)] is strictly closer. *)
Lemma generate_solutions_not_closest :
  feasible 0 1 67108864 /\
  @math_sqrt binary64 (sq_dist (-1, 67108864, -1))
    = @math_sqrt binary64 (sq_dist (0, 67108864, 0)) /\
  @generate_solutions binary64 0 1 67108864 1 1 = Ok [(-1, 67108864, -1)] /\
  In (0, 67108864, 0) (candidates 0 1 67108864 1) /\
  sq_dist (0, 67108864, 0) < sq_dist (-1, 67108864, -1).
Proof.
  split; [split; reflexivity|]. split; [vm_compute; reflexivity|].
  split; [vm_compute; reflexivity|].
  split; [vm_compute; auto | reflexivity].
Qed.

(** C8, amended: for a feasible equation, [t_range >= 0] and
    [max_solutions >= 1], a call that returns gives exactly
    [min(2*t_range + 1, max_solutions)] solutions; and when every enumerated
    candidate has [x^2 + y^2 < 2^52] the call returns, and with
    [max_solutions = 1] it returns exactly one solution, the closest to the
    origin among the enumerated candidates. *)
Theorem generate_solutions_count (a b c t_range max_solutions : Z) :
  0 < Z.gcd (Z.abs a) (Z.abs b) ->
  c mod Z.gcd (Z.abs a) (Z.abs b) = 0 ->
  0 <= t_range -> 1 <= max_solutions ->
  (forall l, @generate_solutions binary64 a b c t_range max_solutions = Ok l ->
             Z.of_nat (length l) = Z.min (2 * t_range + 1) max_solutions) /\
  ((forall s, In s (candidates a b c t_range) -> sq_dist s < 2 ^ 52) ->
   (exists l,
       @generate_solutions binary64 a b c t_range max_solutions = Ok l) /\
   (max_solutions = 1 ->
    exists s,
      @generate_solutions binary64 a b c t_range max_solutions = Ok [s] /\
      In s (candidates a b c t_range) /\
      forall s', In s' (candidates a b c t_range) -> sq_dist s <= sq_dist s')).
Proof.
  intros Hg Hc HT Hk. assert (Hf : feasible a b c) by (split; assumption).
  split.
  - intros l H. eapply generate_solutions_length; eassumption.
  - intros Hsmall. pose proof (binary64_sqrt_exact _ Hsmall) as Hex. split.
    + destruct (@generate_solutions_sorted_exact binary64 a b c t_range
                  max_solutions Hf Hex) as (l & E & _).
      exists l. exact E.
    + intros ->. apply generate_solutions_closest_exact; assumption.
Qed.

Lemma generate_solutions_count_witness :
  0 < Z.gcd (Z.abs 2) (Z.abs 3) /\
  6 mod Z.gcd (Z.abs 2) (Z.abs 3) = 0 /\
  0 <= 50 /\ 1 <= 1 /\
  (forall s, In s (candidates 2 3 6 50) -> sq_dist s < 2 ^ 52) /\
  @generate_solutions binary64 2 3 6 50 1 = Ok [(0, 2, 2)] /\
  Z.of_nat (length [(0, 2, 2)]) = Z.min (2 * 50 + 1) 1 /\
  exists s,
    @generate_solutions binary64 2 3 6 50 1 = Ok [s] /\
    In s (candidates 2 3 6 50) /\
    forall s', In s' (candidates 2 3 6 50) -> sq_dist s <= sq_dist s'.
Proof.
  assert (Hsmall : forall s, In s (candidates 2 3 6 50) -> sq_dist s < 2 ^ 52)
    by (apply small_by_computation; vm_compute; reflexivity).
  assert (E : @generate_solutions binary64 2 3 6 50 1 = Ok [(0, 2, 2)])
    by (vm_compute; reflexivity).
  split; [reflexivity|]. split; [reflexivity|]. split; [lia|]. split; [lia|].
  split; [exact Hsmall|]. split; [exact E|].
  destruct (generate_solutions_count 2 3 6 50 1) as [Hlen Hclose];
    [reflexivity | reflexivity | lia | lia |].
  split; [apply Hlen; exact E|].
  apply (proj2 (Hclose Hsmall)). reflexivity.
Defined.

(** C7 fails on the code: [0x + 0y = 1] has no integer solution, yet the
    call does not return the empty list: it ends in the [ZeroDivisionError]
    of [c % 0], which [except ValueError] does not catch. *)
Theorem generate_solutions_zero_gcd_crash {F : FloatOps}
        (t_range max_solutions : Z) :
  (forall x y, 0 * x + 0 * y <> 1) /\
  generate_solutions 0 0 1 t_range max_solutions = Raise ZeroDivisionError.
Proof. split; [intros x y; lia | reflexivity]. Qed.

(** Outside [a = b = 0] what C7 says holds: the empty list is returned
    exactly when the gcd does not divide [c]. *)
Lemma generate_solutions_empty_iff {F : FloatOps}
      (a b c t_range max_solutions : Z) :
  0 < Z.gcd (Z.abs a) (Z.abs b) -> 0 <= t_range -> 1 <= max_solutions ->
  (generate_solutions a b c t_range max_solutions = Ok [] <->
   c mod Z.gcd (Z.abs a) (Z.abs b) <> 0).
Proof.
  intros Hg HT Hk. split.
  - intros H Hc.
    apply (generate_solutions_feasible_nonempty a b c t_range max_solutions);
      [split; assumption | assumption | assumption | exact H].
  - apply generate_solutions_infeasible. exact Hg.
Qed.

(** On doubles the call returns whenever the squared distances of the
    candidates stay below [2^1023]. *)
Lemma generate_solutions_returns (a b c t_range max_solutions : Z) :
  feasible a b c ->
  (forall s, In s (candidates a b c t_range) -> sq_dist s < 2 ^ 1023) ->
  exists l, @generate_solutions binary64 a b c t_range max_solutions = Ok l.
Proof.
  intros Hf Hsmall.
  destruct (@generate_solutions binary64 a b c t_range max_solutions)
    as [l|e] eqn:E; [eauto|].
  exfalso. rewrite generate_solutions_feasible in E by assumption.
  destruct (decorate (candidates a b c t_range)) as [sols|e'] eqn:Ed;
    [discriminate|].
  apply for_each_Raise in Ed as (s & Hs & Ed).
  rewrite Binary64Facts.math_sqrt_binary64 in Ed by apply sq_dist_nonneg.
  pose proof (sq_dist_nonneg s) as Hnn. specialize (Hsmall s Hs).
  unfold Binary64.sqrt_int in Ed.
  destruct (sq_dist s) as [|p|p] eqn:Ep; [discriminate Ed| |lia].
  pose proof (Binary64Facts.of_int_bounds p) as Hof.
  destruct (Binary64.of_int (Z.pos p)); [discriminate Ed|].
  pose proof (Binary64Facts.Zdigits2_le (Z.pos p) 1023 ltac:(lia) Hsmall). lia.
Qed.

(** C9: for [0x + 5y = 10] and every [t_range >= 0], [max_solutions >= 1],
    [generate_solutions] does not divide by zero, and every returned
    [(x, y, t)] has [y = 2]; the list returned is never empty, and the only
    way not to return is the [OverflowError] of [math.sqrt]. *)
Theorem generate_solutions_horizontal {F : FloatOps}
        (t_range max_solutions : Z) :
  0 <= t_range -> 1 <= max_solutions ->
  generate_solutions 0 5 10 t_range max_solutions <> Raise ZeroDivisionError /\
  (forall l, generate_solutions 0 5 10 t_range max_solutions = Ok l ->
             forall x y t, In (x, y, t) l -> y = 2) /\
  ((exists l, generate_solutions 0 5 10 t_range max_solutions = Ok l /\
              l <> []) \/
   generate_solutions 0 5 10 t_range max_solutions = Raise OverflowError).
Proof.
  intros HT Hk.
  assert (Hf : feasible 0 5 10) by (split; reflexivity).
  split; [|split].
  - intros H. apply generate_solutions_Raise in H; [discriminate | exact Hf].
  - intros l H x y t Hin.
    apply (generate_solutions_subset _ _ _ _ _ _ Hf H) in Hin.
    change (candidates 0 5 10 t_range)
      with (map (fun t => (0 + 5 / 5 * t, 2 - 0 / 5 * t, t))
              (Py.range (- t_range) (t_range + 1))) in Hin.
    apply in_map_iff in Hin as (t' & Heq & _). injection Heq as _ <- _.
    reflexivity.
  - destruct (generate_solutions 0 5 10 t_range max_solutions) as [l|e] eqn:E.
    + left. exists l. split; [reflexivity|]. intros ->.
      apply (generate_solutions_feasible_nonempty 0 5 10 t_range max_solutions);
        assumption.
    + right. apply generate_solutions_Raise in E; [|exact Hf].
      subst e. reflexivity.
Qed.

Lemma generate_solutions_horizontal_witness :
  0 <= 3 /\ 1 <= 5 /\
  @generate_solutions binary64 0 5 10 3 5
    = Ok [(0, 2, 0); (-1, 2, -1); (1, 2, 1); (-2, 2, -2); (2, 2, 2)] /\
  @generate_solutions binary64 0 5 10 3 5 <> Raise ZeroDivisionError /\
  (forall l, @generate_solutions binary64 0 5 10 3 5 = Ok l ->
             forall x y t, In (x, y, t) l -> y = 2) /\
  ((exists l, @generate_solutions binary64 0 5 10 3 5 = Ok l /\ l <> []) \/
   @generate_solutions binary64 0 5 10 3 5 = Raise OverflowError).
Proof.
  split; [lia|]. split; [lia|]. split; [vm_compute; reflexivity|].
  apply (@generate_solutions_horizontal binary64 3 5); lia.
Defined.

(** ** The window sizer on doubles *)

Lemma is_max_extent_nonneg (m : Z) (sols : list (list Z)) :
  is_max_extent m sols -> 0 <= m.
Proof.
  intros [_ Hex]. apply Exists_exists in Hex as (s & _ & s4 & s5 & _ & _ & H).
  lia.
Qed.

(** C5, as stated, fails.  A solution [(x, y, t)] has no field 4, so the
    call raises [IndexError]; on the six-field records of the annotation the
    fields read are 4 and 5, not [x] and [y], so a record with [x = 3],
    [y = 4] and zero plot coordinates gives [0], which is not positive and
    is below [max(|x|,|y|)]; and the product is truncated by [int], so a
    largest coordinate of [1] gives [1], not [1.2]. *)
Lemma calculate_window_size_not_scaled_xy :
  @calculate_window_size binary64 [[0; 2; 0]] = Raise IndexError /\
  @calculate_window_size binary64 [[3; 4; 0; 5; 0; 0]] = Ok 0 /\
  @calculate_window_size binary64 [[1; 1; 0; 1; 1; 1]] = Ok 1.
Proof. repeat split; vm_compute; reflexivity. Qed.

(** C5, amended: for an empty sequence [calculate_window_size] returns 10.
    For a non-empty sequence of records with at least six fields it returns
    [int(m * 1.2)], the double-precision product truncated to an integer,
    where [m] is the largest of [|s[4]|], [|s[5]|] over the records; that
    integer is at least [m] (so at least every [|s[4]|] and [|s[5]|]; it is
    [0] when [m = 0]), and the call can only fail, with [OverflowError],
    when [m >= 2^1021].  When some record has fewer than six fields, as an
    [(x, y, t)] solution has, the call raises [IndexError]. *)
Theorem calculate_window_size_spec (sols : list (list Z)) :
  (sols = [] -> @calculate_window_size binary64 sols = Ok 10) /\
  (sols <> [] -> Forall (fun s => (6 <= length s)%nat) sols ->
   exists m,
     is_max_extent m sols /\
     @calculate_window_size binary64 sols = @times_1_2 binary64 m /\
     match @calculate_window_size binary64 sols with
     | Ok w => m <= w
     | Raise e => e = OverflowError /\ 2 ^ 1021 <= m
     end) /\
  (Exists (fun s => (length s < 6)%nat) sols ->
   @calculate_window_size binary64 sols = Raise IndexError).
Proof.
  destruct (@calculate_window_size_cases binary64 sols)
    as (Hnil & Hrec & Hshort).
  split; [exact Hnil|]. split; [|exact Hshort].
  intros Hne Hall. destruct (Hrec Hne Hall) as (m & Hmax & E).
  exists m. split; [exact Hmax|]. split; [exact E|].
  rewrite E, Binary64Facts.times_1_2_binary64.
  pose proof (Binary64Facts.scale_1_2_spec m (is_max_extent_nonneg _ _ Hmax))
    as H.
  destruct (Binary64.scale_1_2 m) as [w|]; simpl; auto.
Qed.

Lemma calculate_window_size_spec_witness :
  [[3; 4; 0; 5; 6; -8]; [0; 2; 1; 2; 10; 1]] <> [] /\
  Forall (fun s => (6 <= length s)%nat)
         [[3; 4; 0; 5; 6; -8]; [0; 2; 1; 2; 10; 1]] /\
  @calculate_window_size binary64 [[3; 4; 0; 5; 6; -8]; [0; 2; 1; 2; 10; 1]]
    = Ok 12 /\
  exists m,
    is_max_extent m [[3; 4; 0; 5; 6; -8]; [0; 2; 1; 2; 10; 1]] /\
    @calculate_window_size binary64 [[3; 4; 0; 5; 6; -8]; [0; 2; 1; 2; 10; 1]]
      = @times_1_2 binary64 m /\
    match @calculate_window_size binary64
            [[3; 4; 0; 5; 6; -8]; [0; 2; 1; 2; 10; 1]] with
    | Ok w => m <= w
    | Raise e => e = OverflowError /\ 2 ^ 1021 <= m
    end.
Proof.
  split; [discriminate|].
  split; [repeat constructor; simpl; lia|].
  split; [vm_compute; reflexivity|].
  apply (calculate_window_size_spec [[3; 4; 0; 5; 6; -8]; [0; 2; 1; 2; 10; 1]]).
  - discriminate.
  - repeat constructor; simpl; lia.
Defined.

(** * Further properties of the solver and its callers *)

(** ** Solvability, in terms of [math.gcd(a, b)] *)

Lemma feasible_iff (a b c : Z) :
  feasible a b c <-> (a <> 0 \/ b <> 0) /\ (Z.gcd a b | c).
Proof.
  unfold feasible. rewrite Z.gcd_abs_l, Z.gcd_abs_r.
  pose proof (Z.gcd_nonneg a b) as Hnn.
  pose proof (Z.gcd_eq_0 a b) as H0.
  split.
  - intros [Hg Hc]. split.
    + destruct (Z.eq_dec a 0), (Z.eq_dec b 0); auto. subst.
      rewrite Z.gcd_0_l in Hg. simpl in Hg. lia.
    + apply Z.mod_divide; [lia | exact Hc].
  - intros [Hab Hd]. assert (Hg : 0 < Z.gcd a b) by lia.
    split; [exact Hg|]. apply Z.mod_divide; [lia | exact Hd].
Qed.

Lemma not_both_zero_gcd (a b : Z) :
  a <> 0 \/ b <> 0 -> 0 < Z.gcd (Z.abs a) (Z.abs b).
Proof.
  intros H. rewrite Z.gcd_abs_l, Z.gcd_abs_r.
  pose proof (Z.gcd_nonneg a b). pose proof (Z.gcd_eq_0 a b). lia.
Qed.

Lemma find_particular_solution_cases (a b c : Z) :
  (a = 0 /\ b = 0 /\
   find_particular_solution a b c = Raise ZeroDivisionError) \/
  ((a <> 0 \/ b <> 0) /\ ~ (Z.gcd a b | c) /\
   find_particular_solution a b c = Raise ValueError) \/
  (feasible a b c /\
   exists x0 y0, find_particular_solution a b c = Ok (x0, y0) /\
                 a * x0 + b * y0 = c).
Proof.
  destruct (Z.eq_dec a 0) as [Ha|Ha], (Z.eq_dec b 0) as [Hb|Hb];
    [left; subst; auto | | | ];
    (right;
     assert (Hab : a <> 0 \/ b <> 0) by auto;
     pose proof (not_both_zero_gcd a b Hab) as Hg;
     destruct (Z.eq_dec (c mod Z.gcd (Z.abs a) (Z.abs b)) 0) as [Hc|Hc];
     [ right; assert (Hf : feasible a b c) by (split; assumption);
       split; [exact Hf | apply find_particular_solution_feasible; exact Hf]
     | left; split; [exact Hab|]; split;
       [ intros Hd; apply Hc;
         assert (Hf : feasible a b c) by (apply feasible_iff; auto);
         exact (proj2 Hf)
       | apply find_particular_solution_infeasible; assumption ] ]).
Qed.

Lemma find_particular_solution_Ok_feasible (a b c x0 y0 : Z) :
  find_particular_solution a b c = Ok (x0, y0) ->
  feasible a b c /\ a * x0 + b * y0 = c.
Proof.
  intros E.
  destruct (find_particular_solution_cases a b c)
    as [(_ & _ & E') | [(_ & _ & E') | (Hf & x & y & E' & Hxy)]];
    rewrite E in E'; try discriminate.
  injection E' as <- <-. auto.
Qed.

(** X1: the outcomes of [find_particular_solution], for all integers [a],
    [b], [c].  It returns only when [a] and [b] are not both zero and
    [gcd(a, b)] divides [c], and the pair returned then solves the equation;
    it raises [ValueError] only when [a], [b] are not both zero and the gcd
    does not divide [c]; it raises [ZeroDivisionError] (the [c % 0]) only
    when [a = b = 0]; it raises nothing else.  The three conditions exclude
    each other, so each outcome happens exactly under its condition. *)
Theorem find_particular_solution_outcomes (a b c : Z) :
  match find_particular_solution a b c with
  | Ok (x0, y0) =>
      (a <> 0 \/ b <> 0) /\ (Z.gcd a b | c) /\ a * x0 + b * y0 = c
  | Raise ValueError => (a <> 0 \/ b <> 0) /\ ~ (Z.gcd a b | c)
  | Raise ZeroDivisionError => a = 0 /\ b = 0
  | Raise _ => False
  end.
Proof.
  destruct (find_particular_solution_cases a b c)
    as [(Ha & Hb & E) | [(Hab & Hd & E) | (Hf & x & y & E & Hxy)]];
    rewrite E; auto.
  apply feasible_iff in Hf as [Hab Hd]. auto.
Qed.

(** ** Axis-parallel lines *)

Lemma extended_gcd_r0 (a : Z) : extended_gcd a 0 = Ok (a, 1, 0).
Proof. reflexivity. Qed.

Lemma extended_gcd_l0 (b : Z) : b <> 0 -> extended_gcd 0 b = Ok (b, 0, 1).
Proof.
  intros Hb. unfold extended_gcd.
  destruct (Z.abs_nat b) as [|n] eqn:En; [lia|].
  simpl. unfold Py.mod_, Py.floordiv.
  destruct (Z.eqb_spec b 0); [contradiction|].
  simpl. reflexivity.
Qed.

Lemma find_particular_solution_vertical (a c : Z) :
  a <> 0 -> (a | c) -> find_particular_solution a 0 c = Ok (c / a, 0).
Proof.
  intros Ha [k ->]. unfold find_particular_solution.
  change (Z.abs 0) with 0. rewrite extended_gcd_r0. cbn [bind].
  rewrite mod_nonzero, floordiv_nonzero by lia. cbn [bind].
  assert (Hm : (k * a) mod Z.abs a = 0).
  { apply Z.mod_divide; [lia|]. apply Z.divide_abs_l.
    exists k. reflexivity. }
  rewrite Hm. cbn [Z.eqb negb Z.ltb Z.compare]. rewrite Z.div_mul by assumption.
  destruct (Z.ltb_spec a 0) as [Hneg|Hpos]; f_equal; f_equal.
  - rewrite Z.abs_neq by lia.
    replace (k * a) with (- k * - a) by ring. rewrite Z.div_mul by lia. lia.
  - rewrite Z.abs_eq by lia. rewrite Z.div_mul by lia. lia.
Qed.

Lemma find_particular_solution_horizontal (b c : Z) :
  b <> 0 -> (b | c) -> find_particular_solution 0 b c = Ok (0, c / b).
Proof.
  intros Hb [k ->]. unfold find_particular_solution.
  change (Z.abs 0) with 0. rewrite extended_gcd_l0 by lia. cbn [bind].
  rewrite mod_nonzero, floordiv_nonzero by lia. cbn [bind].
  assert (Hm : (k * b) mod Z.abs b = 0).
  { apply Z.mod_divide; [lia|]. apply Z.divide_abs_l.
    exists k. reflexivity. }
  rewrite Hm. cbn [Z.eqb negb Z.ltb Z.compare]. rewrite Z.div_mul by assumption.
  destruct (Z.ltb_spec b 0) as [Hneg|Hpos]; f_equal; f_equal.
  - rewrite Z.abs_neq by lia.
    replace (k * b) with (- k * - b) by ring. rewrite Z.div_mul by lia. lia.
  - rewrite Z.abs_eq by lia. rewrite Z.div_mul by lia. lia.
Qed.

(** X2: when one coefficient is zero the particular solution is the
    intercept: for [a <> 0] dividing [c],
    [find_particular_solution(a, 0, c) = (c // a, 0)] and
    [find_particular_solution(0, a, c) = (0, c // a)], whatever the sign of
    [a]. *)
Theorem find_particular_solution_axis (a c : Z) :
  a <> 0 -> (a | c) ->
  find_particular_solution a 0 c = Ok (c / a, 0) /\
  find_particular_solution 0 a c = Ok (0, c / a).
Proof.
  intros Ha Hd. split.
  - apply find_particular_solution_vertical; assumption.
  - apply find_particular_solution_horizontal; assumption.
Qed.

Lemma find_particular_solution_axis_witness :
  -3 <> 0 /\ (-3 | 12) /\
  find_particular_solution (-3) 0 12 = Ok (-4, 0) /\
  find_particular_solution 0 (-3) 12 = Ok (0, -4).
Proof.
  split; [discriminate|]. split; [exists (-4); reflexivity|].
  apply (find_particular_solution_axis (-3) 12);
    [discriminate | exists (-4); reflexivity].
Defined.

(** ** Size of the Bezout coefficients *)

Lemma extended_gcd_fuel_small fuel :
  forall a b d x y, 0 < a -> 0 < b ->
  extended_gcd_fuel fuel a b = Some (Ok (d, x, y)) ->
  0 < d /\ Z.abs x * d <= b /\ Z.abs y * d <= a.
Proof.
  induction fuel as [|fuel IH]; intros a b d x y Ha Hb E; [discriminate|].
  cbn [extended_gcd_fuel] in E.
  replace (b =? 0) with false in E by (symmetry; apply Z.eqb_neq; lia).
  rewrite mod_nonzero, floordiv_nonzero in E by lia.
  pose proof (Z.mod_pos_bound a b Hb) as Hr.
  pose proof (Z.div_mod a b ltac:(lia)) as Hab.
  assert (Hq : 0 <= a / b) by (apply Z.div_pos; lia).
  set (r := a mod b) in *. set (q := a / b) in *.
  destruct (extended_gcd_fuel fuel b r)
    as [[[[d1 x1] y1]|e]|] eqn:E1; simpl in E; try discriminate.
  injection E as <- <- <-.
  destruct (Z.eq_dec r 0) as [Hz|Hnz].
  - rewrite Hz in E1. destruct fuel as [|fuel']; [discriminate|].
    simpl in E1. injection E1 as <- <- <-.
    assert (1 <= q) by nia.
    split; [lia|]. split; [simpl; lia|].
    replace (1 - q * 0) with 1 by ring. change (Z.abs 1) with 1. nia.
  - destruct (IH b r d1 x1 y1) as (Hd & Hx1 & Hy1);
      [lia | lia | exact E1 |].
    split; [exact Hd|]. split; [exact Hy1|].
    assert (Z.abs (x1 - q * y1) <= Z.abs x1 + q * Z.abs y1).
    { rewrite <- (Z.abs_eq q) at 2 by assumption.
      rewrite <- Z.abs_mul. lia. }
    nia.
Qed.

Lemma extended_gcd_coefficients_le (a b : Z) :
  0 < a -> 0 < b ->
  exists x y,
    extended_gcd a b = Ok (Z.gcd a b, x, y) /\
    Z.abs x <= b / Z.gcd a b /\ Z.abs y <= a / Z.gcd a b.
Proof.
  intros Ha Hb.
  destruct (extended_gcd_spec a b) as (d & x & y & E & _ & Hd).
  unfold gcd_nonneg_case in Hd.
  replace (0 <? b) with true in Hd by (symmetry; apply Z.ltb_lt; exact Hb).
  simpl in Hd. subst d. exists x, y. split; [exact E|].
  unfold extended_gcd in E.
  destruct (extended_gcd_fuel (S (Z.abs_nat b)) a b) as [r|] eqn:Ef;
    [|discriminate].
  subst r.
  destruct (extended_gcd_fuel_small _ _ _ _ _ _ Ha Hb Ef) as (Hg & Hx & Hy).
  split; apply Z.div_le_lower_bound; lia.
Qed.

(** X3: for positive [a] and [b], [extended_gcd] returns [gcd(a, b)] with
    Bezout coefficients that are small: [|x| <= b / gcd(a, b)] and
    [|y| <= a / gcd(a, b)]. *)
Theorem extended_gcd_small_coefficients (a b : Z) :
  0 < a -> 0 < b ->
  exists x y,
    extended_gcd a b = Ok (Z.gcd a b, x, y) /\
    Z.abs x <= b / Z.gcd a b /\ Z.abs y <= a / Z.gcd a b.
Proof. apply extended_gcd_coefficients_le. Qed.

Lemma extended_gcd_small_coefficients_witness :
  0 < 240 /\ 0 < 46 /\
  extended_gcd 240 46 = Ok (2, -9, 47) /\
  exists x y,
    extended_gcd 240 46 = Ok (Z.gcd 240 46, x, y) /\
    Z.abs x <= 46 / Z.gcd 240 46 /\ Z.abs y <= 240 / Z.gcd 240 46.
Proof.
  split; [lia|]. split; [lia|]. split; [reflexivity|].
  apply (extended_gcd_small_coefficients 240 46); lia.
Defined.

Lemma abs_div_exact (c g : Z) : 0 < g -> (g | c) -> Z.abs (c / g) = Z.abs c / g.
Proof.
  intros Hg [k ->]. rewrite Z.div_mul by lia.
  rewrite Z.abs_mul, (Z.abs_eq g) by lia. rewrite Z.div_mul by lia.
  reflexivity.
Qed.

Lemma find_particular_solution_size (a b c : Z) :
  a <> 0 -> b <> 0 -> (Z.gcd a b | c) ->
  exists x0 y0,
    find_particular_solution a b c = Ok (x0, y0) /\
    Z.abs x0 <= Z.abs b / Z.gcd a b * (Z.abs c / Z.gcd a b) /\
    Z.abs y0 <= Z.abs a / Z.gcd a b * (Z.abs c / Z.gcd a b).
Proof.
  intros Ha Hb Hd.
  assert (Hf : feasible a b c) by (apply feasible_iff; auto).
  pose proof (gcd_pos_of_feasible _ _ _ Hf) as Hg.
  destruct (extended_gcd_coefficients_le (Z.abs a) (Z.abs b))
    as (x & y & E & Hx & Hy); [lia | lia |].
  rewrite Z.gcd_abs_l, Z.gcd_abs_r in E, Hx, Hy.
  unfold find_particular_solution. rewrite E. cbn [bind].
  rewrite mod_nonzero, floordiv_nonzero by lia. cbn [bind].
  replace (c mod Z.gcd a b) with 0
    by (symmetry; apply Z.mod_divide; [lia | exact Hd]).
  cbn [Z.eqb negb].
  eexists _, _. split; [reflexivity|].
  rewrite <- (abs_div_exact c) by assumption.
  set (q := c / Z.gcd a b).
  assert (Hq : 0 <= Z.abs q) by lia.
  split.
  - replace (Z.abs (if a <? 0 then - (x * q) else x * q))
      with (Z.abs x * Z.abs q)
      by (rewrite <- Z.abs_mul; destruct (a <? 0); lia).
    apply Z.mul_le_mono_nonneg_r; assumption.
  - replace (Z.abs (if b <? 0 then - (y * q) else y * q))
      with (Z.abs y * Z.abs q)
      by (rewrite <- Z.abs_mul; destruct (b <? 0); lia).
    apply Z.mul_le_mono_nonneg_r; assumption.
Qed.

(** X4: for non-zero [a], [b] and [g = gcd(a, b)] dividing [c], the
    particular solution is bounded by the coefficients:
    [|x0| <= (|b| / g) * (|c| / g)] and [|y0| <= (|a| / g) * (|c| / g)]. *)
Theorem find_particular_solution_bounded (a b c : Z) :
  a <> 0 -> b <> 0 -> (Z.gcd a b | c) ->
  exists x0 y0,
    find_particular_solution a b c = Ok (x0, y0) /\
    Z.abs x0 <= Z.abs b / Z.gcd a b * (Z.abs c / Z.gcd a b) /\
    Z.abs y0 <= Z.abs a / Z.gcd a b * (Z.abs c / Z.gcd a b).
Proof. apply find_particular_solution_size. Qed.

Lemma find_particular_solution_bounded_witness :
  -4 <> 0 /\ 6 <> 0 /\ (Z.gcd (-4) 6 | 10) /\
  find_particular_solution (-4) 6 10 = Ok (5, 5) /\
  exists x0 y0,
    find_particular_solution (-4) 6 10 = Ok (x0, y0) /\
    Z.abs x0 <= Z.abs 6 / Z.gcd (-4) 6 * (Z.abs 10 / Z.gcd (-4) 6) /\
    Z.abs y0 <= Z.abs (-4) / Z.gcd (-4) 6 * (Z.abs 10 / Z.gcd (-4) 6).
Proof.
  split; [discriminate|]. split; [discriminate|].
  split; [exists 5; reflexivity|]. split; [reflexivity|].
  apply (find_particular_solution_bounded (-4) 6 10);
    [discriminate | discriminate | exists 5; reflexivity].
Defined.

(** ** [find_min_t_range]: value and outcomes *)

Lemma find_min_t_range_value (a b c x0 y0 : Z) :
  find_particular_solution a b c = Ok (x0, y0) -> a <> 0 -> b <> 0 ->
  find_min_t_range a b c None None
  = Ok (Z.max (Z.max (Z.abs (x0 / (b / Z.gcd a b)))
                     (Z.abs (y0 / (a / Z.gcd a b))) + 5) 50).
Proof.
  intros E Ha Hb.
  destruct (find_particular_solution_Ok_feasible _ _ _ _ _ E) as [Hf _].
  pose proof (gcd_pos_of_feasible _ _ _ Hf) as Hg.
  unfold find_min_t_range. rewrite E. cbn [bind].
  rewrite (floordiv_nonzero b) by lia. cbn [bind].
  rewrite floordiv_nonzero by (rewrite div_gcd_zero_r; assumption).
  cbn [bind].
  rewrite (floordiv_nonzero a) by lia. cbn [bind].
  rewrite floordiv_nonzero by (rewrite div_gcd_zero_l; assumption).
  reflexivity.
Qed.

Lemma find_min_t_range_target_value (a b c x0 y0 tx ty : Z) :
  find_particular_solution a b c = Ok (x0, y0) -> b <> 0 ->
  find_min_t_range a b c (Some tx) (Some ty)
  = Ok (Z.max (Z.abs ((tx - x0) / (b / Z.gcd a b)) + 5) 50).
Proof.
  intros E Hb.
  destruct (find_particular_solution_Ok_feasible _ _ _ _ _ E) as [Hf _].
  pose proof (gcd_pos_of_feasible _ _ _ Hf) as Hg.
  unfold find_min_t_range. rewrite E. cbn [bind].
  rewrite (floordiv_nonzero b) by lia. cbn [bind].
  rewrite floordiv_nonzero by (rewrite div_gcd_zero_r; assumption).
  reflexivity.
Qed.

Lemma find_min_t_range_cases (a b c : Z) :
  match find_min_t_range a b c None None with
  | Ok T => a <> 0 /\ b <> 0 /\ (Z.gcd a b | c) /\ 50 <= T
  | Raise ValueError => (a <> 0 \/ b <> 0) /\ ~ (Z.gcd a b | c)
  | Raise ZeroDivisionError =>
      (a = 0 /\ b = 0) \/ ((a = 0 \/ b = 0) /\ (Z.gcd a b | c))
  | Raise _ => False
  end.
Proof.
  destruct (find_particular_solution_cases a b c)
    as [(Ha & Hb & E) | [(Hab & Hd & E) | (Hf & x & y & E & Hxy)]].
  - unfold find_min_t_range. rewrite E. cbn [bind]. auto.
  - unfold find_min_t_range. rewrite E. cbn [bind]. auto.
  - pose proof (proj1 (feasible_iff a b c) Hf) as [Hab Hd].
    destruct (Z.eq_dec a 0) as [Ha|Ha];
      [rewrite find_min_t_range_zero_coefficient by auto; auto|].
    destruct (Z.eq_dec b 0) as [Hb|Hb];
      [rewrite find_min_t_range_zero_coefficient by auto; auto|].
    rewrite (find_min_t_range_value _ _ _ _ _ E) by assumption.
    repeat split; try assumption. apply Z.le_max_r.
Qed.

(** X5: the outcomes of [find_min_t_range] without a target point, for all
    integers [a], [b], [c].  It returns only when [a] and [b] are both
    non-zero and [gcd(a, b)] divides [c], and the range returned is then at
    least 50; it raises [ValueError] only when [a], [b] are not both zero
    and the gcd does not divide [c]; it raises [ZeroDivisionError] only when
    [a = b = 0], or one coefficient is zero and the gcd divides [c]; it
    raises nothing else. *)
Theorem find_min_t_range_outcomes (a b c : Z) :
  match find_min_t_range a b c None None with
  | Ok T => a <> 0 /\ b <> 0 /\ (Z.gcd a b | c) /\ 50 <= T
  | Raise ValueError => (a <> 0 \/ b <> 0) /\ ~ (Z.gcd a b | c)
  | Raise ZeroDivisionError =>
      (a = 0 /\ b = 0) \/ ((a = 0 \/ b = 0) /\ (Z.gcd a b | c))
  | Raise _ => False
  end.
Proof. apply find_min_t_range_cases. Qed.

Lemma abs_floor_le (x B k : Z) :
  B <> 0 -> Z.abs x <= Z.abs B * k -> Z.abs (x / B) <= k.
Proof.
  intros HB Hx.
  assert (Hk : 0 <= k) by nia.
  destruct (Z.lt_ge_cases 0 B) as [Hpos|Hneg].
  - rewrite (Z.abs_eq B) in Hx by lia. apply Z.abs_le. split.
    + apply Z.div_le_lower_bound; [assumption | nia].
    + apply Z.div_le_upper_bound; [assumption | nia].
  - rewrite (Z.abs_neq B) in Hx by lia.
    rewrite <- Z.div_opp_opp by assumption. apply Z.abs_le. split.
    + apply Z.div_le_lower_bound; [lia | nia].
    + apply Z.div_le_upper_bound; [lia | nia].
Qed.

Lemma abs_div_gcd_r (a b : Z) :
  0 < Z.gcd a b -> Z.abs (b / Z.gcd a b) = Z.abs b / Z.gcd a b.
Proof. intros Hg. apply abs_div_exact; [assumption | apply Z.gcd_divide_r]. Qed.

Lemma abs_div_gcd_l (a b : Z) :
  0 < Z.gcd a b -> Z.abs (a / Z.gcd a b) = Z.abs a / Z.gcd a b.
Proof. intros Hg. apply abs_div_exact; [assumption | apply Z.gcd_divide_l]. Qed.

Lemma find_min_t_range_le (a b c : Z) :
  a <> 0 -> b <> 0 -> (Z.gcd a b | c) ->
  exists T,
    find_min_t_range a b c None None = Ok T /\
    50 <= T <= Z.max 50 (Z.abs c / Z.gcd a b + 5).
Proof.
  intros Ha Hb Hd.
  assert (Hf : feasible a b c) by (apply feasible_iff; auto).
  pose proof (gcd_pos_of_feasible _ _ _ Hf) as Hg.
  destruct (find_particular_solution_size a b c Ha Hb Hd)
    as (x0 & y0 & E & Hx & Hy).
  rewrite (find_min_t_range_value _ _ _ _ _ E) by assumption.
  eexists. split; [reflexivity|].
  rewrite <- abs_div_gcd_r in Hx by assumption.
  rewrite <- abs_div_gcd_l in Hy by assumption.
  apply abs_floor_le in Hx; [|rewrite div_gcd_zero_r; assumption].
  apply abs_floor_le in Hy; [|rewrite div_gcd_zero_l; assumption].
  lia.
Qed.

(** X6: for non-zero [a], [b] and [gcd(a, b)] dividing [c], the range
    returned without a target point is between 50 and
    [max(50, |c| / gcd(a, b) + 5)]: the number of candidates
    [generate_solutions] is asked to enumerate grows at most linearly
    with [c]. *)
Theorem find_min_t_range_bounded (a b c : Z) :
  a <> 0 -> b <> 0 -> (Z.gcd a b | c) ->
  exists T,
    find_min_t_range a b c None None = Ok T /\
    50 <= T <= Z.max 50 (Z.abs c / Z.gcd a b + 5).
Proof. apply find_min_t_range_le. Qed.

Lemma find_min_t_range_bounded_witness :
  2 <> 0 /\ 3 <> 0 /\ (Z.gcd 2 3 | 600) /\
  find_min_t_range 2 3 600 None None = Ok 305 /\
  exists T,
    find_min_t_range 2 3 600 None None = Ok T /\
    50 <= T <= Z.max 50 (Z.abs 600 / Z.gcd 2 3 + 5).
Proof.
  split; [discriminate|]. split; [discriminate|].
  split; [exists 600; reflexivity|]. split; [reflexivity|].
  apply (find_min_t_range_bounded 2 3 600);
    [discriminate | discriminate | exists 600; reflexivity].
Defined.

(** ** The solution family is all of the line *)

Lemma solution_family_complete (a b x0 y0 x y : Z) :
  a <> 0 \/ b <> 0 -> a * x0 + b * y0 = a * x + b * y ->
  exists t, x = x0 + b / Z.gcd a b * t /\ y = y0 - a / Z.gcd a b * t.
Proof.
  intros Hab Heq.
  assert (Hg : 0 < Z.gcd a b).
  { pose proof (Z.gcd_nonneg a b). pose proof (Z.gcd_eq_0 a b). lia. }
  destruct (Z.gcd_divide_l a b) as [A HA].
  destruct (Z.gcd_divide_r a b) as [B HB].
  destruct (Z.gcd_bezout a b _ eq_refl) as (u & v & Huv).
  set (g := Z.gcd a b) in *.
  assert (EA : a / g = A) by (rewrite HA at 1; apply Z.div_mul; lia).
  assert (EB : b / g = B) by (rewrite HB at 1; apply Z.div_mul; lia).
  rewrite EA, EB.
  assert (H1 : u * A + v * B = 1).
  { apply (Z.mul_reg_r _ _ g); [lia|].
    replace ((u * A + v * B) * g) with (u * (A * g) + v * (B * g)) by ring.
    rewrite <- HA, <- HB. lia. }
  assert (H0 : A * (x - x0) + B * (y - y0) = 0).
  { apply (Z.mul_reg_r _ _ g); [lia|].
    replace ((A * (x - x0) + B * (y - y0)) * g)
      with ((A * g) * x + (B * g) * y - ((A * g) * x0 + (B * g) * y0))
      by ring.
    rewrite <- HA, <- HB. lia. }
  exists (v * (x - x0) - u * (y - y0)). split.
  - replace (B * (v * (x - x0) - u * (y - y0)))
      with ((v * B) * (x - x0) - u * (B * (y - y0))) by ring.
    replace (v * B) with (1 - u * A) by lia.
    replace (B * (y - y0)) with (- (A * (x - x0))) by lia. ring.
  - replace (A * (v * (x - x0) - u * (y - y0)))
      with (v * (A * (x - x0)) - (u * A) * (y - y0)) by ring.
    replace (u * A) with (1 - v * B) by lia.
    replace (A * (x - x0)) with (- (B * (y - y0))) by lia. ring.
Qed.

Lemma solution_family_injective (a b t t' : Z) :
  a <> 0 \/ b <> 0 ->
  b / Z.gcd a b * t = b / Z.gcd a b * t' ->
  a / Z.gcd a b * t = a / Z.gcd a b * t' ->
  t = t'.
Proof.
  intros Hab Hb Ha.
  assert (Hg : 0 < Z.gcd a b).
  { pose proof (Z.gcd_nonneg a b). pose proof (Z.gcd_eq_0 a b). lia. }
  destruct Hab as [H|H].
  - apply (Z.mul_reg_l _ _ (a / Z.gcd a b)); [|exact Ha].
    rewrite div_gcd_zero_l; assumption.
  - apply (Z.mul_reg_l _ _ (b / Z.gcd a b)); [|exact Hb].
    rewrite div_gcd_zero_r; assumption.
Qed.

Lemma In_candidates (a b c T x0 y0 x y t : Z) :
  find_particular_solution a b c = Ok (x0, y0) ->
  (In (x, y, t) (candidates a b c T) <->
   - T <= t <= T /\
   x = x0 + b / Z.gcd a b * t /\ y = y0 - a / Z.gcd a b * t).
Proof.
  intros E. unfold candidates. rewrite E. rewrite in_map_iff. split.
  - intros (t' & Heq & Hin). injection Heq as <- <- <-.
    apply range_In in Hin. split; [lia | auto].
  - intros (Ht & -> & ->). exists t. split; [reflexivity|].
    apply range_In. lia.
Qed.

Lemma candidates_complete (a b c x y : Z) :
  a <> 0 \/ b <> 0 -> a * x + b * y = c ->
  exists t, forall T, Z.abs t <= T -> In (x, y, t) (candidates a b c T).
Proof.
  intros Hab Hc.
  assert (Hf : feasible a b c).
  { apply feasible_iff. split; [exact Hab|]. rewrite <- Hc.
    apply Z.divide_add_r; apply Z.divide_mul_l;
      [apply Z.gcd_divide_l | apply Z.gcd_divide_r]. }
  destruct (find_particular_solution_feasible _ _ _ Hf) as (x0 & y0 & E & H0).
  destruct (solution_family_complete a b x0 y0 x y Hab) as (t & Hx & Hy);
    [lia|].
  exists t. intros T HT. apply (In_candidates _ _ _ _ _ _ _ _ _ E).
  split; [lia | auto].
Qed.

(** X7: with a target point [(tx, ty)] on the line and [b <> 0] ([a] may
    be zero), [find_min_t_range] returns a range [T >= 50] that reaches the
    target: the target is the member of the solution family for a parameter
    [t] with [|t| + 5 <= T], so it is among the candidates that
    [generate_solutions] enumerates for [t_range = T]. *)
Theorem find_min_t_range_covers_target (a b c tx ty : Z) :
  b <> 0 -> a * tx + b * ty = c ->
  exists T t,
    find_min_t_range a b c (Some tx) (Some ty) = Ok T /\
    50 <= T /\ Z.abs t + 5 <= T /\
    In (tx, ty, t) (candidates a b c T).
Proof.
  intros Hb Hc.
  assert (Hab : a <> 0 \/ b <> 0) by auto.
  assert (Hf : feasible a b c).
  { apply feasible_iff. split; [exact Hab|]. rewrite <- Hc.
    apply Z.divide_add_r; apply Z.divide_mul_l;
      [apply Z.gcd_divide_l | apply Z.gcd_divide_r]. }
  pose proof (gcd_pos_of_feasible _ _ _ Hf) as Hg.
  destruct (find_particular_solution_feasible _ _ _ Hf) as (x0 & y0 & E & H0).
  destruct (solution_family_complete a b x0 y0 tx ty Hab) as (t & Hx & Hy);
    [lia|].
  rewrite (find_min_t_range_target_value _ _ _ _ _ _ _ E Hb).
  assert (Ht : (tx - x0) / (b / Z.gcd a b) = t).
  { replace (tx - x0) with (t * (b / Z.gcd a b)) by lia.
    apply Z.div_mul. rewrite div_gcd_zero_r; assumption. }
  rewrite Ht. eexists _, t. split; [reflexivity|].
  split; [lia|]. split; [lia|].
  apply (In_candidates _ _ _ _ _ _ _ _ _ E). split; [lia | auto].
Qed.

Lemma find_min_t_range_covers_target_witness :
  3 <> 0 /\ 2 * 300 + 3 * (-198) = 6 /\
  find_min_t_range 2 3 6 (Some 300) (Some (-198)) = Ok 107 /\
  exists T t,
    find_min_t_range 2 3 6 (Some 300) (Some (-198)) = Ok T /\
    50 <= T /\ Z.abs t + 5 <= T /\
    In (300, -198, t) (candidates 2 3 6 T).
Proof.
  split; [discriminate|]. split; [reflexivity|]. split; [reflexivity|].
  apply (find_min_t_range_covers_target 2 3 6 300 (-198));
    [discriminate | reflexivity].
Defined.

(** ** The window around the closest solution *)

Lemma abs_le_floor_succ (x B : Z) :
  B <> 0 -> Z.abs x <= Z.abs B * (Z.abs (x / B) + 1).
Proof.
  intros HB.
  pose proof (Z.div_mod x B HB) as Hx.
  assert (Hr : Z.abs (x mod B) <= Z.abs B).
  { destruct (Z.lt_ge_cases 0 B).
    - pose proof (Z.mod_pos_bound x B). lia.
    - pose proof (Z.mod_neg_bound x B). lia. }
  set (q := x / B) in *. set (r := x mod B) in *.
  assert (Z.abs x <= Z.abs (B * q) + Z.abs r) by lia.
  rewrite Z.abs_mul in H. lia.
Qed.

Lemma window_covers_minimum (A B x0 y0 T t : Z) :
  A <> 0 -> B <> 0 ->
  Z.max (Z.abs (x0 / B)) (Z.abs (y0 / A)) + 1 <= T ->
  exists t',
    - T <= t' <= T /\
    (x0 + B * t') * (x0 + B * t') + (y0 - A * t') * (y0 - A * t')
    <= (x0 + B * t) * (x0 + B * t) + (y0 - A * t) * (y0 - A * t).
Proof.
  intros HA HB HT.
  pose proof (abs_le_floor_succ x0 B HB) as Hx.
  pose proof (abs_le_floor_succ y0 A HA) as Hy.
  set (Q := A * A + B * B). set (P := B * x0 - A * y0).
  assert (HQ : 0 < Q) by (unfold Q; nia).
  assert (HT0 : 0 < T) by lia.
  assert (HP : Z.abs P <= Q * T).
  { assert (H1 : Z.abs (B * x0) <= B * B * T).
    { rewrite Z.abs_mul.
      replace (B * B) with (Z.abs B * Z.abs B) by lia.
      rewrite <- Z.mul_assoc. apply Z.mul_le_mono_nonneg_l; [lia|].
      eapply Z.le_trans; [exact Hx|].
      apply Z.mul_le_mono_nonneg_l; lia. }
    assert (H2 : Z.abs (A * y0) <= A * A * T).
    { rewrite Z.abs_mul.
      replace (A * A) with (Z.abs A * Z.abs A) by lia.
      rewrite <- Z.mul_assoc. apply Z.mul_le_mono_nonneg_l; [lia|].
      eapply Z.le_trans; [exact Hy|].
      apply Z.mul_le_mono_nonneg_l; lia. }
    unfold P, Q. lia. }
  assert (Hdiff : forall u v,
            (x0 + B * u) * (x0 + B * u) + (y0 - A * u) * (y0 - A * u)
            - ((x0 + B * v) * (x0 + B * v) + (y0 - A * v) * (y0 - A * v))
            = (u - v) * (Q * (u + v) + 2 * P)).
  { intros u v. unfold P, Q. ring. }
  destruct (Z.lt_ge_cases T t) as [Hhi|Hhi].
  - exists T. split; [lia|].
    pose proof (Hdiff t T) as Hd.
    assert (0 <= (t - T) * (Q * (t + T) + 2 * P)).
    { apply Z.mul_nonneg_nonneg; [lia|].
      assert (Q * (2 * T) <= Q * (t + T))
        by (apply Z.mul_le_mono_nonneg_l; lia).
      lia. }
    lia.
  - destruct (Z.lt_ge_cases t (- T)) as [Hlo|Hlo].
    + exists (- T). split; [lia|].
      pose proof (Hdiff t (- T)) as Hd.
      assert (0 <= (t - - T) * (Q * (t + - T) + 2 * P)).
      { apply Z.mul_nonpos_nonpos; [lia|].
        assert (Q * (t + - T) <= Q * (- (2 * T)))
          by (apply Z.mul_le_mono_nonneg_l; lia).
        lia. }
      lia.
    + exists t. split; lia.
Qed.

Lemma window_has_closest (a b c T x y : Z) :
  find_min_t_range a b c None None = Ok T ->
  a * x + b * y = c ->
  exists s, In s (candidates a b c T) /\ sq_dist s <= x * x + y * y.
Proof.
  intros ET Hc.
  pose proof (find_min_t_range_cases a b c) as Hout.
  rewrite ET in Hout. destruct Hout as (Ha & Hb & Hd & HT).
  assert (Hab : a <> 0 \/ b <> 0) by auto.
  assert (Hf : feasible a b c) by (apply feasible_iff; auto).
  pose proof (gcd_pos_of_feasible _ _ _ Hf) as Hg.
  destruct (find_particular_solution_feasible _ _ _ Hf) as (x0 & y0 & E & H0).
  rewrite (find_min_t_range_value _ _ _ _ _ E) in ET by assumption.
  injection ET as ET.
  destruct (solution_family_complete a b x0 y0 x y Hab) as (t & Hx & Hy);
    [lia|].
  destruct (window_covers_minimum (a / Z.gcd a b) (b / Z.gcd a b) x0 y0 T t)
    as (t' & Ht' & Hle).
  - rewrite div_gcd_zero_l; assumption.
  - rewrite div_gcd_zero_r; assumption.
  - lia.
  - exists (x0 + b / Z.gcd a b * t', y0 - a / Z.gcd a b * t', t').
    split.
    + apply (In_candidates _ _ _ _ _ _ _ _ _ E). auto.
    + unfold sq_dist. rewrite Hx, Hy. exact Hle.
Qed.

(** X8: the range [T] that [find_min_t_range] returns without a target
    point is wide enough for the solution closest to the origin: for every
    integer solution [(x, y)] of [a*x + b*y = c], wherever on the line,
    some candidate enumerated for [t_range = T] is at least as close to the
    origin. *)
Theorem find_min_t_range_covers_closest (a b c T x y : Z) :
  find_min_t_range a b c None None = Ok T ->
  a * x + b * y = c ->
  exists s, In s (candidates a b c T) /\ sq_dist s <= x * x + y * y.
Proof. apply window_has_closest. Qed.

Lemma find_min_t_range_covers_closest_witness :
  find_min_t_range 2 3 600 None None = Ok 305 /\
  2 * 3000 + 3 * (-1800) = 600 /\
  exists s, In s (candidates 2 3 600 305) /\
            sq_dist s <= 3000 * 3000 + (-1800) * (-1800).
Proof.
  split; [reflexivity|]. split; [reflexivity|].
  apply (find_min_t_range_covers_closest 2 3 600 305 3000 (-1800));
    reflexivity.
Defined.

(** ** What [generate_solutions] selects *)

Lemma NoDup_map_injective {A B : Type} (f : A -> B) (l : list A) :
  (forall x y, In x l -> In y l -> f x = f y -> x = y) ->
  NoDup l -> NoDup (map f l).
Proof.
  induction l as [|x l IH]; simpl; intros Hinj Hnd; [constructor|].
  inversion Hnd as [|x' l' Hx Hl]; subst. constructor.
  - intros Hin. apply in_map_iff in Hin as (y & Hy & Hin).
    apply Hx. rewrite (Hinj x y); auto.
  - apply IH; auto.
Qed.

Lemma NoDup_firstn {A : Type} (n : nat) (l : list A) :
  NoDup l -> NoDup (firstn n l).
Proof.
  intros H. rewrite <- (firstn_skipn n l) in H.
  eapply NoDup_app_remove_r. exact H.
Qed.

Lemma range_NoDup lo hi : NoDup (Py.range lo hi).
Proof.
  pose proof (range_increasing lo hi) as H.
  induction H as [|x l Hl IH Hx]; constructor; [|exact IH].
  intros Hin. rewrite Forall_forall in Hx. specialize (Hx x Hin). lia.
Qed.

Lemma firstn_le_app {A : Type} (n n' : nat) (l : list A) :
  (n <= n')%nat -> exists r, firstn n' l = firstn n l ++ r.
Proof.
  revert n' l. induction n as [|n IH]; intros n' l Hle.
  - exists (firstn n' l). reflexivity.
  - destruct n' as [|n']; [lia|]. destruct l as [|x l].
    + exists []. reflexivity.
    + destruct (IH n' l) as [r Hr]; [lia|]. exists r. simpl. rewrite Hr.
      reflexivity.
Qed.

Section Selection.

Context {F : FloatOps}.

(** Whenever the call returns on a feasible equation, the result is the
    front of a rearrangement of the candidates. *)
Lemma generate_solutions_selection (a b c t_range max_solutions : Z) l :
  feasible a b c ->
  generate_solutions a b c t_range max_solutions = Ok l ->
  exists (L : list (Z * Z * Z)),
    Permutation L (candidates a b c t_range) /\
    l = Py.slice_to L max_solutions.
Proof.
  intros Hf H. rewrite generate_solutions_feasible in H by assumption.
  apply bind_Ok_inv in H as (sols & Hdec & H). injection H as <-.
  exists (map fst (sort_by_key snd sols)). split.
  - rewrite <- (decorate_Ok _ _ Hdec). apply Permutation_map, sort_by_perm.
  - unfold Py.slice_to. rewrite length_map.
    destruct (0 <=? max_solutions); rewrite firstn_map; reflexivity.
Qed.

Lemma generate_solutions_Ok_cases (a b c t_range max_solutions : Z) l :
  generate_solutions a b c t_range max_solutions = Ok l ->
  (l = [] /\ (a <> 0 \/ b <> 0) /\ ~ (Z.gcd a b | c)) \/ feasible a b c.
Proof.
  intros H.
  destruct (find_particular_solution_cases a b c)
    as [(Ha & Hb & E) | [(Hab & Hd & E) | (Hf & _)]].
  - unfold generate_solutions in H. rewrite E in H. discriminate.
  - unfold generate_solutions in H. rewrite E in H. injection H as <-. auto.
  - auto.
Qed.

Lemma candidates_NoDup_param (a b c t_range : Z) :
  NoDup (map param (candidates a b c t_range)).
Proof.
  unfold candidates.
  destruct (find_particular_solution a b c) as [[x0 y0]|e]; [|constructor].
  rewrite map_map. cbn [param snd]. rewrite map_id. apply range_NoDup.
Qed.

Lemma candidates_NoDup_point (a b c t_range : Z) :
  NoDup (map fst (candidates a b c t_range)).
Proof.
  unfold candidates.
  destruct (find_particular_solution a b c) as [[x0 y0]|e] eqn:E;
    [|constructor].
  apply find_particular_solution_Ok_feasible in E as [Hf _].
  apply feasible_iff in Hf as [Hab _].
  rewrite map_map. cbn [fst].
  apply NoDup_map_injective; [|apply range_NoDup].
  intros t t' _ _ Heq. injection Heq as Hx Hy.
  apply (solution_family_injective a b t t' Hab); lia.
Qed.

Lemma slice_to_NoDup_map {A B : Type} (f : A -> B) (L L' : list A) k :
  Permutation L L' -> NoDup (map f L') -> NoDup (map f (Py.slice_to L k)).
Proof.
  intros Hp Hnd.
  destruct (slice_to_firstn L k) as [n ->].
  rewrite <- firstn_map. apply NoDup_firstn.
  apply (Permutation_NoDup (Permutation_sym (Permutation_map f Hp))).
  exact Hnd.
Qed.

Lemma generate_solutions_no_repeats (a b c t_range max_solutions : Z) l :
  generate_solutions a b c t_range max_solutions = Ok l ->
  NoDup (map param l) /\ NoDup (map fst l) /\
  forall s, In s l -> - t_range <= param s <= t_range.
Proof.
  intros H.
  destruct (generate_solutions_Ok_cases _ _ _ _ _ _ H) as [(-> & _)|Hf].
  { split; [constructor|]. split; [constructor|]. intros s []. }
  destruct (generate_solutions_selection _ _ _ _ _ _ Hf H) as (L & Hp & ->).
  split; [|split].
  - eapply slice_to_NoDup_map; [exact Hp | apply candidates_NoDup_param].
  - eapply slice_to_NoDup_map; [exact Hp | apply candidates_NoDup_point].
  - intros s Hs. destruct (slice_to_firstn L max_solutions) as [n Hn].
    rewrite Hn in Hs. apply firstn_In in Hs.
    apply (Permutation_in _ Hp) in Hs.
    destruct (find_particular_solution_feasible _ _ _ Hf) as (x0 & y0 & E & _).
    destruct s as [[x y] t].
    apply (In_candidates _ _ _ _ _ _ _ _ _ E) in Hs. cbn [param snd]. lia.
Qed.

Lemma generate_solutions_all (a b c x y : Z) :
  a <> 0 \/ b <> 0 -> a * x + b * y = c ->
  exists t, forall t_range max_solutions l,
    Z.abs t <= t_range -> 2 * t_range + 1 <= max_solutions ->
    generate_solutions a b c t_range max_solutions = Ok l ->
    In (x, y, t) l.
Proof.
  intros Hab Hc.
  destruct (candidates_complete a b c x y Hab Hc) as [t Ht].
  exists t. intros T k l HT Hk H.
  assert (Hf : feasible a b c).
  { apply feasible_iff. split; [exact Hab|]. rewrite <- Hc.
    apply Z.divide_add_r; apply Z.divide_mul_l;
      [apply Z.gcd_divide_l | apply Z.gcd_divide_r]. }
  destruct (generate_solutions_selection _ _ _ _ _ _ Hf H) as (L & Hp & ->).
  unfold Py.slice_to.
  replace (0 <=? k) with true by (symmetry; apply Z.leb_le; lia).
  rewrite firstn_all2.
  - apply (Permutation_in _ (Permutation_sym Hp)). apply Ht. exact HT.
  - rewrite (Permutation_length Hp), candidates_length by (assumption || lia).
    lia.
Qed.

Lemma generate_solutions_grows (a b c t_range k k' : Z) l :
  0 <= k <= k' ->
  generate_solutions a b c t_range k = Ok l ->
  exists l', generate_solutions a b c t_range k' = Ok (l ++ l').
Proof.
  intros Hk H. unfold generate_solutions in *.
  destruct (find_particular_solution a b c) as [[x0 y0]|[]];
    try discriminate.
  - destruct (Py.for_each _ _) as [sols|e]; [|discriminate].
    simpl in *. injection H as <-. unfold Py.slice_to.
    replace (0 <=? k) with true by (symmetry; apply Z.leb_le; lia).
    replace (0 <=? k') with true by (symmetry; apply Z.leb_le; lia).
    destruct (firstn_le_app (Z.to_nat k) (Z.to_nat k')
                (sort_by_key (fun s => snd s) sols)) as [r Hr]; [lia|].
    rewrite Hr, map_app. eexists. reflexivity.
  - injection H as <-. exists []. reflexivity.
Qed.

Lemma generate_solutions_cut (a b c t_range max_solutions : Z) l :
  (a <> 0 \/ b <> 0) -> (Z.gcd a b | c) -> 0 <= t_range ->
  max_solutions <= 0 ->
  generate_solutions a b c t_range max_solutions = Ok l ->
  Z.of_nat (length l)
  = if max_solutions =? 0 then 0
    else Z.max 0 (2 * t_range + 1 + max_solutions).
Proof.
  intros Hab Hd HT Hk H.
  assert (Hf : feasible a b c) by (apply feasible_iff; auto).
  destruct (generate_solutions_selection _ _ _ _ _ _ Hf H) as (L & Hp & ->).
  pose proof (Permutation_length Hp) as Hlen.
  rewrite candidates_length in Hlen by assumption.
  unfold Py.slice_to.
  destruct (Z.eqb_spec max_solutions 0) as [->|Hne]; [reflexivity|].
  replace (0 <=? max_solutions) with false
    by (symmetry; apply Z.leb_gt; lia).
  rewrite length_firstn. lia.
Qed.

Lemma generate_solutions_empty_range (a b c t_range max_solutions : Z) :
  (a <> 0 \/ b <> 0) -> t_range < 0 ->
  generate_solutions a b c t_range max_solutions = Ok [].
Proof.
  intros Hab HT.
  destruct (find_particular_solution_cases a b c)
    as [(Ha & Hb & E) | [(_ & Hd & E) | (Hf & _)]].
  - lia.
  - unfold generate_solutions. rewrite E. reflexivity.
  - rewrite generate_solutions_feasible by assumption.
    assert (Hc : candidates a b c t_range = []).
    { unfold candidates.
      destruct (find_particular_solution a b c) as [[x0 y0]|e];
        [|reflexivity].
      unfold Py.range.
      replace (Z.to_nat (t_range + 1 - - t_range)) with 0%nat by lia.
      reflexivity. }
    rewrite Hc. simpl. unfold Py.slice_to.
    destruct (0 <=? max_solutions); rewrite firstn_nil; reflexivity.
Qed.

Lemma div_abs_sgn (a : Z) : a <> 0 -> a / Z.abs a = Z.sgn a.
Proof.
  intros Ha. destruct (Z.lt_ge_cases 0 a).
  - rewrite Z.abs_eq, Z.sgn_pos, Z.div_same by lia. reflexivity.
  - rewrite Z.abs_neq, Z.sgn_neg by lia.
    replace a with (-1 * - a) at 1 by ring. apply Z.div_mul. lia.
Qed.

Lemma generate_solutions_one_axis (a c t_range max_solutions : Z) :
  a <> 0 -> (a | c) ->
  (forall l, generate_solutions a 0 c t_range max_solutions = Ok l ->
             forall x y t, In (x, y, t) l ->
                           x = c / a /\ y = - Z.sgn a * t) /\
  (forall l, generate_solutions 0 a c t_range max_solutions = Ok l ->
             forall x y t, In (x, y, t) l ->
                           x = Z.sgn a * t /\ y = c / a) /\
  (forall e, generate_solutions a 0 c t_range max_solutions = Raise e \/
             generate_solutions 0 a c t_range max_solutions = Raise e ->
             e = OverflowError).
Proof.
  intros Ha Hd.
  assert (Hf1 : feasible a 0 c).
  { apply feasible_iff. rewrite Z.gcd_0_r. split; [auto|].
    apply Z.divide_abs_l. exact Hd. }
  assert (Hf2 : feasible 0 a c).
  { apply feasible_iff. rewrite Z.gcd_0_l. split; [auto|].
    apply Z.divide_abs_l. exact Hd. }
  split; [|split].
  - intros l H x y t Hin.
    apply (generate_solutions_subset _ _ _ _ _ _ Hf1 H) in Hin.
    apply (In_candidates _ _ _ _ _ _ _ _ _
             (find_particular_solution_vertical a c Ha Hd)) in Hin.
    destruct Hin as (_ & -> & ->).
    rewrite Z.gcd_0_r, div_abs_sgn by assumption.
    rewrite Z.div_0_l by lia. split; ring.
  - intros l H x y t Hin.
    apply (generate_solutions_subset _ _ _ _ _ _ Hf2 H) in Hin.
    apply (In_candidates _ _ _ _ _ _ _ _ _
             (find_particular_solution_horizontal a c Ha Hd)) in Hin.
    destruct Hin as (_ & -> & ->).
    rewrite Z.gcd_0_l, div_abs_sgn by assumption.
    rewrite Z.div_0_l by lia. split; ring.
  - intros e [H|H].
    + exact (generate_solutions_Raise _ _ _ _ _ _ Hf1 H).
    + exact (generate_solutions_Raise _ _ _ _ _ _ Hf2 H).
Qed.

End Selection.

(** ** Properties of the returned list *)

(** X9: whenever [generate_solutions] returns, the triples of the list
    have pairwise distinct parameters [t], pairwise distinct points
    [(x, y)], and every [t] lies in [[-t_range, t_range]]. *)
Theorem generate_solutions_distinct {F : FloatOps}
        (a b c t_range max_solutions : Z) (l : list (Z * Z * Z)) :
  generate_solutions a b c t_range max_solutions = Ok l ->
  NoDup (map param l) /\ NoDup (map fst l) /\
  forall s, In s l -> - t_range <= param s <= t_range.
Proof. apply generate_solutions_no_repeats. Qed.

Lemma generate_solutions_distinct_witness :
  @generate_solutions binary64 2 3 6 2 4
    = Ok [(0, 2, 2); (-3, 4, 1); (-6, 6, 0); (-9, 8, -1)] /\
  NoDup (map param [(0, 2, 2); (-3, 4, 1); (-6, 6, 0); (-9, 8, -1)]) /\
  NoDup (map fst [(0, 2, 2); (-3, 4, 1); (-6, 6, 0); (-9, 8, -1)]) /\
  forall s, In s [(0, 2, 2); (-3, 4, 1); (-6, 6, 0); (-9, 8, -1)] ->
            - 2 <= param s <= 2.
Proof.
  split; [vm_compute; reflexivity|].
  apply (@generate_solutions_distinct binary64 2 3 6 2 4).
  vm_compute; reflexivity.
Defined.

(** X10: the family [x0 + (b // d) * t], [y0 - (a // d) * t] is all of the
    line.  For [a], [b] not both zero and every integer solution [(x, y)]
    of [a*x + b*y = c] there is a parameter [t] such that every call with
    [t_range >= |t|] and [max_solutions >= 2 * t_range + 1] that returns,
    returns a list with [(x, y, t)] in it. *)
Theorem generate_solutions_complete {F : FloatOps} (a b c x y : Z) :
  a <> 0 \/ b <> 0 -> a * x + b * y = c ->
  exists t, forall t_range max_solutions l,
    Z.abs t <= t_range -> 2 * t_range + 1 <= max_solutions ->
    generate_solutions a b c t_range max_solutions = Ok l ->
    In (x, y, t) l.
Proof. apply generate_solutions_all. Qed.

Lemma generate_solutions_complete_witness :
  (2 <> 0 \/ 3 <> 0) /\ 2 * 9 + 3 * (-4) = 6 /\
  exists t, forall t_range max_solutions l,
    Z.abs t <= t_range -> 2 * t_range + 1 <= max_solutions ->
    @generate_solutions binary64 2 3 6 t_range max_solutions = Ok l ->
    In (9, -4, t) l.
Proof.
  split; [left; discriminate|]. split; [reflexivity|].
  apply (@generate_solutions_complete binary64 2 3 6 9 (-4));
    [left; discriminate | reflexivity].
Defined.

(** X11: a larger [max_solutions] only appends.  For [0 <= k <= k'] the
    list returned for [max_solutions = k] is a prefix of the list returned
    for [max_solutions = k'], all other arguments being equal. *)
Theorem generate_solutions_more_extends {F : FloatOps}
        (a b c t_range k k' : Z) (l : list (Z * Z * Z)) :
  0 <= k <= k' ->
  generate_solutions a b c t_range k = Ok l ->
  exists l', generate_solutions a b c t_range k' = Ok (l ++ l').
Proof. apply generate_solutions_grows. Qed.

Lemma generate_solutions_more_extends_witness :
  (0 <= 2 <= 4) /\
  @generate_solutions binary64 2 3 6 50 2 = Ok [(0, 2, 2); (3, 0, 3)] /\
  exists l', @generate_solutions binary64 2 3 6 50 4
             = Ok ([(0, 2, 2); (3, 0, 3)] ++ l').
Proof.
  split; [lia|]. split; [vm_compute; reflexivity|].
  apply (@generate_solutions_more_extends binary64 2 3 6 50 2 4);
    [lia | vm_compute; reflexivity].
Defined.

(** X12: [max_solutions <= 0] on a solvable equation with [t_range >= 0].
    [max_solutions = 0] gives the empty list, but a negative
    [max_solutions] does not: the slice [solutions[:max_solutions]] then
    drops that many solutions from the far end of the [2 * t_range + 1]
    sorted ones, so [max(0, 2 * t_range + 1 + max_solutions)] are
    returned. *)
Theorem generate_solutions_nonpositive_count {F : FloatOps}
        (a b c t_range max_solutions : Z) (l : list (Z * Z * Z)) :
  (a <> 0 \/ b <> 0) -> (Z.gcd a b | c) -> 0 <= t_range ->
  max_solutions <= 0 ->
  generate_solutions a b c t_range max_solutions = Ok l ->
  Z.of_nat (length l)
  = if max_solutions =? 0 then 0
    else Z.max 0 (2 * t_range + 1 + max_solutions).
Proof. apply generate_solutions_cut. Qed.

Lemma generate_solutions_nonpositive_count_witness :
  (2 <> 0 \/ 3 <> 0) /\ (Z.gcd 2 3 | 6) /\ 0 <= 2 /\ -3 <= 0 /\
  @generate_solutions binary64 2 3 6 2 (-3) = Ok [(0, 2, 2); (-3, 4, 1)] /\
  Z.of_nat (length [(0, 2, 2); (-3, 4, 1)])
  = if -3 =? 0 then 0 else Z.max 0 (2 * 2 + 1 + -3).
Proof.
  split; [left; discriminate|]. split; [exists 6; reflexivity|].
  split; [lia|]. split; [lia|]. split; [vm_compute; reflexivity|].
  apply (@generate_solutions_nonpositive_count binary64 2 3 6 2 (-3));
    [left; discriminate | exists 6; reflexivity | lia | lia
    | vm_compute; reflexivity].
Defined.

(** X13: with a negative [t_range] the loop has no iteration, and the call
    returns the empty list for every equation with [a], [b] not both zero,
    solvable or not. *)
Theorem generate_solutions_negative_range {F : FloatOps}
        (a b c t_range max_solutions : Z) :
  (a <> 0 \/ b <> 0) -> t_range < 0 ->
  generate_solutions a b c t_range max_solutions = Ok [].
Proof. apply generate_solutions_empty_range. Qed.

Lemma generate_solutions_negative_range_witness :
  (2 <> 0 \/ 3 <> 0) /\ -1 < 0 /\
  @generate_solutions binary64 2 3 6 (-1) 20 = Ok [].
Proof.
  split; [left; discriminate|]. split; [lia|].
  apply (@generate_solutions_negative_range binary64 2 3 6 (-1) 20);
    [left; discriminate | lia].
Defined.

(** X14: lines parallel to an axis, for [a <> 0] dividing [c].  For
    [a*x + 0*y = c] every returned triple has [x = c // a] and
    [y = - sgn(a) * t]; for [0*x + a*y = c] every returned triple has
    [x = sgn(a) * t] and [y = c // a]; and neither call can fail except by
    the [OverflowError] of [math.sqrt]: there is no division by zero in
    [generate_solutions] on such lines. *)
Theorem generate_solutions_axis_parallel {F : FloatOps}
        (a c t_range max_solutions : Z) :
  a <> 0 -> (a | c) ->
  (forall l, generate_solutions a 0 c t_range max_solutions = Ok l ->
             forall x y t, In (x, y, t) l ->
                           x = c / a /\ y = - Z.sgn a * t) /\
  (forall l, generate_solutions 0 a c t_range max_solutions = Ok l ->
             forall x y t, In (x, y, t) l ->
                           x = Z.sgn a * t /\ y = c / a) /\
  (forall e, generate_solutions a 0 c t_range max_solutions = Raise e \/
             generate_solutions 0 a c t_range max_solutions = Raise e ->
             e = OverflowError).
Proof. apply generate_solutions_one_axis. Qed.

Lemma generate_solutions_axis_parallel_witness :
  -3 <> 0 /\ (-3 | 12) /\
  @generate_solutions binary64 (-3) 0 12 1 3
    = Ok [(-4, 0, 0); (-4, -1, -1); (-4, 1, 1)] /\
  (forall l, @generate_solutions binary64 (-3) 0 12 1 3 = Ok l ->
             forall x y t, In (x, y, t) l ->
                           x = 12 / -3 /\ y = - Z.sgn (-3) * t) /\
  (forall l, @generate_solutions binary64 0 (-3) 12 1 3 = Ok l ->
             forall x y t, In (x, y, t) l ->
                           x = Z.sgn (-3) * t /\ y = 12 / -3) /\
  (forall e, @generate_solutions binary64 (-3) 0 12 1 3 = Raise e \/
             @generate_solutions binary64 0 (-3) 12 1 3 = Raise e ->
             e = OverflowError).
Proof.
  split; [discriminate|]. split; [exists (-4); reflexivity|].
  split; [vm_compute; reflexivity|].
  apply (@generate_solutions_axis_parallel binary64 (-3) 12 1 3);
    [discriminate | exists (-4); reflexivity].
Defined.

(** ** A common factor of the equation *)










(** ** Overflow of the conversion to a double *)

Module Binary64Overflow.

Import Binary64 Binary64Facts.

(** A finite result of the rounding has an exponent of at most
    [emax - prec]. *)
Lemma binary_round_aux_finite_exp sx mx ex lx s m e :
  binary_round_aux 53 1024 sx mx ex lx = S754_finite s m e -> e <= 971.
Proof.
  unfold binary_round_aux.
  destruct (shr_fexp 53 1024 mx ex lx) as [r1 e1].
  destruct (shr_fexp 53 1024 _ e1 loc_Exact) as [r2 e2].
  destruct (shr_m r2); try discriminate.
  destruct (Z.leb_spec e2 (1024 - 53)) as [Hle|Hgt]; [|discriminate].
  intros Heq. injection Heq as _ _ <-. lia.
Qed.

(** An int of [2^1024] or more has no double. *)
Lemma of_int_overflow p : 2 ^ 1024 <= Z.pos p -> of_int (Z.pos p) = None.
Proof.
  intros Hp. unfold of_int, prec, emax, binary_normalize, binary_round.
  set (d := Z.pos (digits2_pos p)).
  assert (Hd : d = Zdigits2 (Z.pos p)) by reflexivity.
  assert (Hdig : 1025 <= d)
    by (rewrite Hd; apply (Zdigits2_ge _ 1024); [lia | exact Hp]).
  pose proof (Zdigits2_bounds (Z.pos p) ltac:(lia)) as Hb. rewrite <- Hd in Hb.
  rewrite Z.add_0_r, fexp_normal by lia.
  unfold shl_align. destruct (d - 53 - 0) as [|k|k] eqn:Ek; try lia.
  pose proof (binary_round_aux_bounds (Z.pos p) 0 ltac:(lia)) as Hbra.
  rewrite <- Hd in Hbra. specialize (Hbra ltac:(lia) ltac:(lia)).
  destruct (binary_round_aux 53 1024 false (Z.pos p) 0 loc_Exact)
    as [s|s| |s M ez] eqn:E; try contradiction; [reflexivity|].
  exfalso. apply binary_round_aux_finite_exp in E.
  destruct s; [contradiction|]. destruct Hbra as (Hle & HM & Hval).
  rewrite Z.sub_0_r in Hval.
  set (n := d - 53) in *.
  assert (Hpn : 0 < 2 ^ n) by pow_pos.
  assert (Hq : 2 ^ 52 <= Z.pos p / 2 ^ n).
  { apply Z.div_le_lower_bound; [assumption|].
    rewrite <- Z.pow_add_r by lia. replace (n + 52) with (d - 1) by lia.
    lia. }
  assert (Hlow : 2 ^ 1024 <= Z.pos p / 2 ^ n * 2 ^ n).
  { apply Z.le_trans with (2 ^ 52 * 2 ^ n).
    - rewrite <- Z.pow_add_r by lia. apply Z.pow_le_mono_r; lia.
    - apply Z.mul_le_mono_nonneg_r; lia. }
  assert (Hhigh : Z.pos M * 2 ^ ez < 2 ^ 1024).
  { apply Z.le_lt_trans with (Z.pos M * 2 ^ 971).
    - apply Z.mul_le_mono_nonneg_l; [lia|]. apply Z.pow_le_mono_r; lia.
    - change (2 ^ 1024) with (2 ^ 53 * 2 ^ 971).
      apply Z.mul_lt_mono_pos_r; [pow_pos | exact HM]. }
  lia.
Qed.

Lemma math_sqrt_overflow (n : Z) :
  2 ^ 1024 <= n -> @math_sqrt binary64 n = Raise OverflowError.
Proof.
  intros Hn. assert (H0 : 0 < 2 ^ 1024) by pow_pos.
  rewrite math_sqrt_binary64 by lia. unfold sqrt_int.
  destruct n as [|p|p]; try lia. rewrite of_int_overflow by exact Hn.
  reflexivity.
Qed.

End Binary64Overflow.

Lemma for_each_In_Raise {A B : Type} (f : A -> result B) l x e :
  In x l -> f x = Raise e -> exists e', Py.for_each f l = Raise e'.
Proof.
  induction l as [|y l IH]; simpl; intros Hin Hx; [contradiction|].
  destruct (f y) as [v|e1] eqn:Ey; simpl; [|eauto].
  destruct Hin as [->|Hin]; [congruence|].
  destruct (IH Hin Hx) as [e' ->]. simpl. eauto.
Qed.

Lemma generate_solutions_too_far (a b c t_range max_solutions : Z) :
  a <> 0 \/ b <> 0 -> (Z.gcd a b | c) ->
  (exists s, In s (candidates a b c t_range) /\ 2 ^ 1024 <= sq_dist s) ->
  @generate_solutions binary64 a b c t_range max_solutions
  = Raise OverflowError.
Proof.
  intros Hab Hd (s & Hs & Hbig).
  assert (Hf : feasible a b c) by (apply feasible_iff; auto).
  rewrite generate_solutions_feasible by assumption.
  destruct (for_each_In_Raise
              (fun s => dist <- @math_sqrt binary64 (sq_dist s) ;;
                        Ok (s, dist))
              (candidates a b c t_range) s OverflowError Hs) as [e He].
  { rewrite Binary64Overflow.math_sqrt_overflow by exact Hbig.
    reflexivity. }
  unfold decorate. rewrite He. simpl.
  apply (@decorate_Raise binary64) in He. subst e. reflexivity.
Qed.

(** X16: on doubles, when [a], [b] are not both zero, [gcd(a, b)] divides
    [c] and some enumerated candidate has [x^2 + y^2 >= 2^1024],
    [generate_solutions] raises [OverflowError]: [math.sqrt] cannot convert
    its argument. *)
Theorem generate_solutions_overflow (a b c t_range max_solutions : Z) :
  a <> 0 \/ b <> 0 -> (Z.gcd a b | c) ->
  (exists s, In s (candidates a b c t_range) /\ 2 ^ 1024 <= sq_dist s) ->
  @generate_solutions binary64 a b c t_range max_solutions
  = Raise OverflowError.
Proof. apply generate_solutions_too_far. Qed.

Lemma generate_solutions_overflow_witness :
  (1 <> 0 \/ 1 <> 0) /\ (Z.gcd 1 1 | 2 ^ 512) /\
  In (0, 2 ^ 512, 0) (candidates 1 1 (2 ^ 512) 0) /\
  2 ^ 1024 <= sq_dist (0, 2 ^ 512, 0) /\
  @generate_solutions binary64 1 1 (2 ^ 512) 0 1 = Raise OverflowError.
Proof.
  assert (Hab : 1 <> 0 \/ 1 <> 0) by (left; discriminate).
  assert (Hd : (Z.gcd 1 1 | 2 ^ 512)) by (apply Z.divide_1_l).
  assert (Hin : In (0, 2 ^ 512, 0) (candidates 1 1 (2 ^ 512) 0))
    by (left; reflexivity).
  assert (Hbig : 2 ^ 1024 <= sq_dist (0, 2 ^ 512, 0))
    by (apply Z.leb_le; vm_compute; reflexivity).
  split; [exact Hab|]. split; [exact Hd|]. split; [exact Hin|].
  split; [exact Hbig|].
  apply (generate_solutions_overflow 1 1 (2 ^ 512) 0 1 Hab Hd).
  exists (0, 2 ^ 512, 0). split; [exact Hin | exact Hbig].
Defined.

(** X17: on doubles, when [a], [b] are not both zero, [gcd(a, b)] divides
    [c] and every enumerated candidate has [x^2 + y^2 < 2^1023],
    [generate_solutions] returns a list. *)
Theorem generate_solutions_no_overflow (a b c t_range max_solutions : Z) :
  a <> 0 \/ b <> 0 -> (Z.gcd a b | c) ->
  (forall s, In s (candidates a b c t_range) -> sq_dist s < 2 ^ 1023) ->
  exists l, @generate_solutions binary64 a b c t_range max_solutions = Ok l.
Proof.
  intros Hab Hd. apply generate_solutions_returns.
  apply feasible_iff. auto.
Qed.

Lemma generate_solutions_no_overflow_witness :
  (1 <> 0 \/ 1 <> 0) /\ (Z.gcd 1 1 | 2 ^ 500) /\
  (forall s, In s (candidates 1 1 (2 ^ 500) 1) -> sq_dist s < 2 ^ 1023) /\
  exists l, @generate_solutions binary64 1 1 (2 ^ 500) 1 3 = Ok l.
Proof.
  assert (Hab : 1 <> 0 \/ 1 <> 0) by (left; discriminate).
  assert (Hd : (Z.gcd 1 1 | 2 ^ 500)) by (apply Z.divide_1_l).
  assert (Hsmall : forall s, In s (candidates 1 1 (2 ^ 500) 1) ->
                             sq_dist s < 2 ^ 1023).
  { intros s Hs.
    assert (H : forallb (fun s => sq_dist s <? 2 ^ 1023)
                  (candidates 1 1 (2 ^ 500) 1) = true)
      by (vm_compute; reflexivity).
    rewrite forallb_forall in H. apply Z.ltb_lt. auto. }
  split; [exact Hab|]. split; [exact Hd|]. split; [exact Hsmall|].
  apply (generate_solutions_no_overflow 1 1 (2 ^ 500) 1 3 Hab Hd Hsmall).
Defined.

(** ** [create_plot]: the axis range *)

Lemma py_max_spec (x : Z) (l : list Z) :
  exists m, py_max (x :: l) = Ok m /\
            (forall y, In y (x :: l) -> y <= m) /\ In m (x :: l).
Proof.
  exists (max_of x l). split; [reflexivity|]. apply max_of_spec.
Qed.

Lemma create_plot_window_cases (solutions : list (Z * Z * Z)) :
  solutions <> [] ->
  exists m,
    @create_plot_window_size binary64 solutions
    = (w <- lift_overflow (Binary64.scale_1_2 m) ;; Ok (Some w)) /\
    (forall x y t, In (x, y, t) solutions -> Z.abs x <= m /\ Z.abs y <= m) /\
    (exists x y t, In (x, y, t) solutions /\ m = Z.max (Z.abs x) (Z.abs y)).
Proof.
  intros Hne. destruct solutions as [|s0 rest]; [contradiction|].
  unfold create_plot_window_size.
  set (sols := s0 :: rest).
  destruct (py_max_spec (Z.abs (fst (fst s0)))
              (map Z.abs (map (fun s => fst (fst s)) rest)))
    as (mx & Ex & Hx & Hxin).
  destruct (py_max_spec (Z.abs (snd (fst s0)))
              (map Z.abs (map (fun s => snd (fst s)) rest)))
    as (my & Ey & Hy & Hyin).
  change (map Z.abs (map (fun s => fst (fst s)) sols))
    with (Z.abs (fst (fst s0))
            :: map Z.abs (map (fun s => fst (fst s)) rest)).
  change (map Z.abs (map (fun s => snd (fst s)) sols))
    with (Z.abs (snd (fst s0))
            :: map Z.abs (map (fun s => snd (fst s)) rest)).
  rewrite Ex, Ey. cbn [bind].
  rewrite Binary64Facts.times_1_2_binary64.
  exists (Z.max mx my). split; [reflexivity|].
  change (Z.abs (fst (fst s0))
            :: map Z.abs (map (fun s => fst (fst s)) rest))
    with (map Z.abs (map (fun s => fst (fst s)) sols)) in Hx, Hxin.
  change (Z.abs (snd (fst s0))
            :: map Z.abs (map (fun s => snd (fst s)) rest))
    with (map Z.abs (map (fun s => snd (fst s)) sols)) in Hy, Hyin.
  rewrite map_map in Hx, Hxin, Hy, Hyin.
  assert (Hall : forall x y t, In (x, y, t) sols ->
                               Z.abs x <= mx /\ Z.abs y <= my).
  { intros x y t Hin. split.
    - apply Hx. apply in_map_iff. exists (x, y, t). auto.
    - apply Hy. apply in_map_iff. exists (x, y, t). auto. }
  split.
  - intros x y t Hin. destruct (Hall x y t Hin). lia.
  - apply in_map_iff in Hxin as ([[x1 y1] t1] & E1 & Hin1).
    apply in_map_iff in Hyin as ([[x2 y2] t2] & E2 & Hin2).
    cbn [fst snd] in E1, E2.
    destruct (Hall x1 y1 t1 Hin1). destruct (Hall x2 y2 t2 Hin2).
    destruct (Z.le_ge_cases mx my).
    + exists x2, y2, t2. split; [assumption | lia].
    + exists x1, y1, t1. split; [assumption | lia].
Qed.

Lemma create_plot_window_bounds (solutions : list (Z * Z * Z)) :
  solutions <> [] ->
  match @create_plot_window_size binary64 solutions with
  | Ok (Some w) =>
      forall x y t, In (x, y, t) solutions -> - w <= x <= w /\ - w <= y <= w
  | Ok None => False
  | Raise e =>
      e = OverflowError /\
      exists x y t, In (x, y, t) solutions /\
                    2 ^ 1021 <= Z.max (Z.abs x) (Z.abs y)
  end.
Proof.
  intros Hne.
  destruct (create_plot_window_cases solutions Hne)
    as (m & -> & Hall & (x0 & y0 & t0 & Hin0 & Hm)).
  pose proof (Binary64Facts.scale_1_2_spec m ltac:(lia)) as Hs.
  destruct (Binary64.scale_1_2 m) as [w|]; simpl.
  - intros x y t Hin. destruct (Hall x y t Hin). lia.
  - split; [reflexivity|]. exists x0, y0, t0. split; [assumption | lia].
Qed.

(** X18: the axis range of [create_plot] holds every solution.  For a
    non-empty list of solutions, on doubles, the [window_size] computed
    satisfies [-window_size <= x <= window_size] and
    [-window_size <= y <= window_size] for every solution [(x, y, t)] of
    the list; the computation can only fail with [OverflowError], and only
    when some [|x|] or [|y|] is [2^1021] or more. *)
Theorem create_plot_window_contains (solutions : list (Z * Z * Z)) :
  solutions <> [] ->
  match @create_plot_window_size binary64 solutions with
  | Ok (Some w) =>
      forall x y t, In (x, y, t) solutions -> - w <= x <= w /\ - w <= y <= w
  | Ok None => False
  | Raise e =>
      e = OverflowError /\
      exists x y t, In (x, y, t) solutions /\
                    2 ^ 1021 <= Z.max (Z.abs x) (Z.abs y)
  end.
Proof. apply create_plot_window_bounds. Qed.

Lemma create_plot_window_contains_witness :
  [(0, 2, 2); (3, 0, 0); (-3, 4, 4)] <> [] /\
  @create_plot_window_size binary64 [(0, 2, 2); (3, 0, 0); (-3, 4, 4)]
    = Ok (Some 4) /\
  match @create_plot_window_size binary64
          [(0, 2, 2); (3, 0, 0); (-3, 4, 4)] with
  | Ok (Some w) =>
      forall x y t, In (x, y, t) [(0, 2, 2); (3, 0, 0); (-3, 4, 4)] ->
                    - w <= x <= w /\ - w <= y <= w
  | Ok None => False
  | Raise e =>
      e = OverflowError /\
      exists x y t, In (x, y, t) [(0, 2, 2); (3, 0, 0); (-3, 4, 4)] /\
                    2 ^ 1021 <= Z.max (Z.abs x) (Z.abs y)
  end.
Proof.
  split; [discriminate|]. split; [vm_compute; reflexivity|].
  apply (create_plot_window_contains [(0, 2, 2); (3, 0, 0); (-3, 4, 4)]).
  discriminate.
Defined.

(** ** [main]: from the widgets to the solutions *)

Lemma main_solutions_cases {F : FloatOps} (a b c max_solutions : Z) :
  match main_solutions a b c max_solutions with
  | Ok None => False
  | Ok (Some l) =>
      a <> 0 /\ b <> 0 /\ (Z.gcd a b | c) /\
      (forall x y t, In (x, y, t) l -> a * x + b * y = c) /\
      (1 <= max_solutions -> l <> [])
  | Raise ValueError => (a <> 0 \/ b <> 0) /\ ~ (Z.gcd a b | c)
  | Raise ZeroDivisionError =>
      (a = 0 /\ b = 0) \/ ((a = 0 \/ b = 0) /\ (Z.gcd a b | c))
  | Raise OverflowError => a <> 0 /\ b <> 0 /\ (Z.gcd a b | c)
  | Raise _ => False
  end.
Proof.
  unfold main_solutions.
  pose proof (find_min_t_range_cases a b c) as Hout.
  destruct (find_min_t_range a b c None None) as [T|e]; cbn [bind];
    [|destruct e; (exact Hout || contradiction)].
  destruct Hout as (Ha & Hb & Hd & HT).
  assert (Hf : feasible a b c) by (apply feasible_iff; auto).
  pose proof (gcd_pos_of_feasible _ _ _ Hf) as Hg.
  rewrite mod_nonzero by lia. cbn [bind].
  replace (c mod Z.gcd a b) with 0
    by (symmetry; apply Z.mod_divide; [lia | exact Hd]).
  cbn [Z.eqb negb].
  destruct (generate_solutions a b c T max_solutions) as [l|e] eqn:E;
    cbn [bind].
  - repeat split; try assumption.
    + intros x y t Hin. apply (candidates_on_line a b c T Hf x y t).
      eapply generate_solutions_subset; eassumption.
    + intros Hk ->.
      apply (generate_solutions_feasible_nonempty a b c T max_solutions);
        [assumption | lia | assumption | exact E].
  - apply generate_solutions_Raise in E; [|exact Hf]. subst e. auto.
Qed.

(** X19: the outcomes of [main]'s way to the solutions, for all widget
    values.  The branch that shows "No integer solutions exist" and returns
    is never taken: when the gcd does not divide [c], [find_min_t_range]
    has already raised [ValueError].  A list of solutions is reached only
    for non-zero [a] and [b] with [gcd(a, b)] dividing [c]; every member
    then lies on the line, and the list is not empty when
    [max_solutions >= 1].  [ZeroDivisionError] is raised only when a
    coefficient is zero, [OverflowError] only by [math.sqrt] on a solvable
    equation, and nothing else is raised. *)
Theorem main_solutions_outcomes {F : FloatOps} (a b c max_solutions : Z) :
  match main_solutions a b c max_solutions with
  | Ok None => False
  | Ok (Some l) =>
      a <> 0 /\ b <> 0 /\ (Z.gcd a b | c) /\
      (forall x y t, In (x, y, t) l -> a * x + b * y = c) /\
      (1 <= max_solutions -> l <> [])
  | Raise ValueError => (a <> 0 \/ b <> 0) /\ ~ (Z.gcd a b | c)
  | Raise ZeroDivisionError =>
      (a = 0 /\ b = 0) \/ ((a = 0 \/ b = 0) /\ (Z.gcd a b | c))
  | Raise OverflowError => a <> 0 /\ b <> 0 /\ (Z.gcd a b | c)
  | Raise _ => False
  end.
Proof. apply main_solutions_cases. Qed.

(** ** On the sliders' range the first row is the closest solution *)

Lemma div_le_self (n g : Z) : 0 <= n -> 0 < g -> n / g <= n.
Proof.
  intros Hn Hg. apply Z.div_le_upper_bound; [assumption | nia].
Qed.

Lemma candidates_small (a b c T : Z) :
  -100 <= a <= 100 -> -100 <= b <= 100 -> a <> 0 -> b <> 0 ->
  Z.abs c <= 200000 -> (Z.gcd a b | c) ->
  find_min_t_range a b c None None = Ok T ->
  forall s, In s (candidates a b c T) -> sq_dist s < 2 ^ 52.
Proof.
  intros Ha Hb Ha0 Hb0 Hc Hd ET [[x y] t] Hs.
  assert (Hf : feasible a b c) by (apply feasible_iff; auto).
  pose proof (gcd_pos_of_feasible _ _ _ Hf) as Hg.
  destruct (find_particular_solution_size a b c Ha0 Hb0 Hd)
    as (x0 & y0 & E & Hx0 & Hy0).
  destruct (find_min_t_range_le a b c Ha0 Hb0 Hd) as (T' & ET' & HT).
  rewrite ET in ET'. injection ET' as <-.
  apply (In_candidates _ _ _ _ _ _ _ _ _ E) in Hs as (Ht & -> & ->).
  pose proof (abs_div_gcd_l a b Hg) as HA.
  pose proof (abs_div_gcd_r a b Hg) as HB.
  pose proof (div_le_self (Z.abs a) _ ltac:(lia) Hg) as HA1.
  pose proof (div_le_self (Z.abs b) _ ltac:(lia) Hg) as HB1.
  pose proof (div_le_self (Z.abs c) _ ltac:(lia) Hg) as HC1.
  assert (HA0 : 0 <= Z.abs a / Z.gcd a b) by (apply Z.div_pos; lia).
  assert (HB0 : 0 <= Z.abs b / Z.gcd a b) by (apply Z.div_pos; lia).
  assert (HC0 : 0 <= Z.abs c / Z.gcd a b) by (apply Z.div_pos; lia).
  set (A := a / Z.gcd a b) in *. set (B := b / Z.gcd a b) in *.
  set (qa := Z.abs a / Z.gcd a b) in *.
  set (qb := Z.abs b / Z.gcd a b) in *.
  set (qc := Z.abs c / Z.gcd a b) in *.
  assert (Hx1 : Z.abs x0 <= 100 * 200000).
  { eapply Z.le_trans; [exact Hx0|]. apply Z.mul_le_mono_nonneg; lia. }
  assert (Hy1 : Z.abs y0 <= 100 * 200000).
  { eapply Z.le_trans; [exact Hy0|]. apply Z.mul_le_mono_nonneg; lia. }
  assert (HBt : Z.abs (B * t) <= 100 * 200005).
  { rewrite Z.abs_mul. apply Z.mul_le_mono_nonneg; lia. }
  assert (HAt : Z.abs (A * t) <= 100 * 200005).
  { rewrite Z.abs_mul. apply Z.mul_le_mono_nonneg; lia. }
  set (u := B * t) in *. set (v := A * t) in *.
  unfold sq_dist.
  assert (Hx : Z.abs (x0 + u) <= 40000500) by lia.
  assert (Hy : Z.abs (y0 - v) <= 40000500) by lia.
  assert (Hxx : (x0 + u) * (x0 + u) <= 40000500 * 40000500).
  { rewrite <- Z.abs_square. apply Z.mul_le_mono_nonneg; lia. }
  assert (Hyy : (y0 - v) * (y0 - v) <= 40000500 * 40000500).
  { rewrite <- Z.abs_square. apply Z.mul_le_mono_nonneg; lia. }
  change (2 ^ 52) with 4503599627370496. lia.
Qed.

Lemma main_solutions_first_closest (a b c max_solutions : Z) :
  -100 <= a <= 100 -> -100 <= b <= 100 -> a <> 0 -> b <> 0 ->
  Z.abs c <= 200000 -> (Z.gcd a b | c) ->
  1 <= max_solutions <= 101 ->
  exists s l,
    @main_solutions binary64 a b c max_solutions = Ok (Some (s :: l)) /\
    Z.of_nat (length (s :: l)) = max_solutions /\
    (forall x y, a * x + b * y = c -> sq_dist s <= x * x + y * y).
Proof.
  intros Ha Hb Ha0 Hb0 Hc Hd Hk.
  assert (Hf : feasible a b c) by (apply feasible_iff; auto).
  pose proof (gcd_pos_of_feasible _ _ _ Hf) as Hg.
  destruct (find_min_t_range_le a b c Ha0 Hb0 Hd) as (T & ET & HT).
  pose proof (candidates_small a b c T Ha Hb Ha0 Hb0 Hc Hd ET) as Hsmall.
  pose proof (binary64_sqrt_exact _ Hsmall) as Hex.
  destruct (@generate_solutions_prefix binary64 a b c T max_solutions Hf Hex)
    as (L & n & E & Hperm & Hsorted & Hn).
  specialize (Hn ltac:(lia)). subst n.
  pose proof (candidates_length a b c T Hf ltac:(lia)) as Hlen.
  rewrite <- (Permutation_length Hperm) in Hlen.
  destruct L as [|s L]; [cbn [length] in Hlen; lia|].
  destruct (Z.to_nat max_solutions) as [|k] eqn:Ek; [lia|].
  cbn [firstn] in E.
  exists s, (firstn k L). split; [|split].
  - unfold main_solutions. rewrite ET. cbn [bind].
    rewrite mod_nonzero by lia. cbn [bind].
    replace (c mod Z.gcd a b) with 0
      by (symmetry; apply Z.mod_divide; [lia | exact Hd]).
    cbn [Z.eqb negb]. rewrite E. reflexivity.
  - cbn [length] in *. rewrite length_firstn. lia.
  - intros x y Hxy.
    destruct (window_has_closest a b c T x y ET Hxy) as (s' & Hs' & Hle).
    apply (Permutation_in _ (Permutation_sym Hperm)) in Hs'.
    destruct Hs' as [<-|Hs']; [exact Hle|].
    apply StronglySorted_inv in Hsorted as [_ Hall].
    rewrite Forall_forall in Hall.
    pose proof (closer_or_earlier_le _ _ (Hall s' Hs')). lia.
Qed.

(** X20: on the sliders' range the first row shown is the solution closest
    to the origin.  For non-zero [a], [b] in [[-100, 100]],
    [|c| <= 200000], [gcd(a, b)] dividing [c] and
    [1 <= max_solutions <= 101], on doubles, [main] reaches a list of
    exactly [max_solutions] solutions whose first member is at least as
    close to the origin as every integer solution of [a*x + b*y = c]. *)
Theorem main_solutions_closest_first (a b c max_solutions : Z) :
  -100 <= a <= 100 -> -100 <= b <= 100 -> a <> 0 -> b <> 0 ->
  Z.abs c <= 200000 -> (Z.gcd a b | c) ->
  1 <= max_solutions <= 101 ->
  exists s l,
    @main_solutions binary64 a b c max_solutions = Ok (Some (s :: l)) /\
    Z.of_nat (length (s :: l)) = max_solutions /\
    (forall x y, a * x + b * y = c -> sq_dist s <= x * x + y * y).
Proof. apply main_solutions_first_closest. Qed.

Lemma main_solutions_closest_first_witness :
  (-100 <= 2 <= 100) /\ (-100 <= 3 <= 100) /\ 2 <> 0 /\ 3 <> 0 /\
  Z.abs 6 <= 200000 /\ (Z.gcd 2 3 | 6) /\ (1 <= 5 <= 101) /\
  @main_solutions binary64 2 3 6 5
    = Ok (Some [(0, 2, 2); (3, 0, 3); (-3, 4, 1); (6, -2, 4); (-6, 6, 0)]) /\
  exists s l,
    @main_solutions binary64 2 3 6 5 = Ok (Some (s :: l)) /\
    Z.of_nat (length (s :: l)) = 5 /\
    (forall x y, 2 * x + 3 * y = 6 -> sq_dist s <= x * x + y * y).
Proof.
  split; [lia|]. split; [lia|]. split; [discriminate|].
  split; [discriminate|]. split; [simpl; lia|].
  split; [exists 6; reflexivity|]. split; [lia|].
  split; [vm_compute; reflexivity|].
  apply (main_solutions_closest_first 2 3 6 5);
    [lia | lia | discriminate | discriminate | simpl; lia
    | exists 6; reflexivity | lia].
Defined.

(** ** The two window computations *)

Lemma max_of_pointwise {A : Type} (f g : A -> Z) (l : list A) :
  forall a b,
    max_of (Z.max a b) (map (fun s => Z.max (f s) (g s)) l)
    = Z.max (max_of a (map f l)) (max_of b (map g l)).
Proof.
  unfold max_of. induction l as [|s l IH]; intros a b; simpl; [reflexivity|].
  rewrite <- IH. f_equal. lia.
Qed.

Lemma plot_extent_fields (r : list Z) (x y : Z) :
  nth_error r 4 = Some x -> nth_error r 5 = Some y ->
  plot_extent r = Ok (Z.max (Z.abs x) (Z.abs y)).
Proof.
  intros H4 H5. unfold plot_extent, Py.index. rewrite H4, H5. reflexivity.
Qed.

Lemma for_each_plot_extent (recs : list (list Z)) (sols : list (Z * Z * Z)) :
  Forall2 (fun r s => nth_error r 4 = Some (fst (fst s)) /\
                      nth_error r 5 = Some (snd (fst s))) recs sols ->
  Py.for_each plot_extent recs
  = Ok (map (fun s => Z.max (Z.abs (fst (fst s))) (Z.abs (snd (fst s))))
          sols).
Proof.
  induction 1 as [|r s recs sols [H4 H5] _ IH]; simpl; [reflexivity|].
  rewrite (plot_extent_fields r _ _ H4 H5), IH. reflexivity.
Qed.

Lemma window_sizes_agree {F : FloatOps}
      (recs : list (list Z)) (sols : list (Z * Z * Z)) :
  sols <> [] ->
  Forall2 (fun r s => nth_error r 4 = Some (fst (fst s)) /\
                      nth_error r 5 = Some (snd (fst s))) recs sols ->
  create_plot_window_size sols
  = (w <- calculate_window_size recs ;; Ok (Some w)).
Proof.
  intros Hne Hrel. pose proof (for_each_plot_extent _ _ Hrel) as Hext.
  destruct Hrel as [|r s recs sols Hrs Hrel]; [contradiction|].
  unfold create_plot_window_size, calculate_window_size. rewrite Hext.
  cbn [map bind py_max].
  rewrite !map_map.
  rewrite (max_of_pointwise (fun s => Z.abs (fst (fst s)))
             (fun s => Z.abs (snd (fst s)))).
  reflexivity.
Qed.

(** X21: [calculate_window_size] computes the window of [create_plot].
    For a non-empty list of solutions and records whose fields 4 and 5 are
    the [x] and [y] of the solutions, in the same order, [create_plot]'s
    [window_size] is what [calculate_window_size] returns on the records,
    exceptions included. *)
Theorem create_plot_window_is_calculate_window_size {F : FloatOps}
        (recs : list (list Z)) (sols : list (Z * Z * Z)) :
  sols <> [] ->
  Forall2 (fun r s => nth_error r 4 = Some (fst (fst s)) /\
                      nth_error r 5 = Some (snd (fst s))) recs sols ->
  create_plot_window_size sols
  = (w <- calculate_window_size recs ;; Ok (Some w)).
Proof. apply window_sizes_agree. Qed.

Lemma create_plot_window_is_calculate_window_size_witness :
  [(3, -8, 1); (6, 2, 0)] <> [] /\
  Forall2 (fun r s => nth_error r 4 = Some (fst (fst s)) /\
                      nth_error r 5 = Some (snd (fst s)))
    [[0; 0; 1; 0; 3; -8]; [0; 0; 0; 0; 6; 2]] [(3, -8, 1); (6, 2, 0)] /\
  @calculate_window_size binary64 [[0; 0; 1; 0; 3; -8]; [0; 0; 0; 0; 6; 2]]
    = Ok 9 /\
  @create_plot_window_size binary64 [(3, -8, 1); (6, 2, 0)]
  = (w <- @calculate_window_size binary64
            [[0; 0; 1; 0; 3; -8]; [0; 0; 0; 0; 6; 2]] ;;
     Ok (Some w)).
Proof.
  assert (Hrel : Forall2
            (fun r s => nth_error r 4 = Some (fst (fst s)) /\
                        nth_error r 5 = Some (snd (fst s)))
            [[0; 0; 1; 0; 3; -8]; [0; 0; 0; 0; 6; 2]]
            [(3, -8, 1); (6, 2, 0)])
    by (repeat constructor).
  split; [discriminate|]. split; [exact Hrel|].
  split; [vm_compute; reflexivity|].
  apply (@create_plot_window_is_calculate_window_size binary64
           [[0; 0; 1; 0; 3; -8]; [0; 0; 0; 0; 6; 2]]
           [(3, -8, 1); (6, 2, 0)]);
    [discriminate | exact Hrel].
Defined.
